(** * Custom kernel bridge of paddle/fluid/framework/custom_kernel.cc

    A shallow embedding of [ParseArgs], [RunKernelFunc],
    [RegisterKernelWithMetaInfo], [RegisterKernelWithMetaInfoMap] and
    [LoadCustomKernelLib], and the properties of the bridge stated over it.

    Conventions.
    - Exceptions raised through PADDLE_ENFORCE_* / PADDLE_THROW are the
      [Throw] outcome of a small state-and-error monad; misuse of an accessor
      of the kernel context (slot index out of range, null or dangling slot,
      attribute box of another type) is the [Fault] outcome, about which
      nothing is promised.
    - VLOG(3) tracing is left out; LOG(ERROR), LOG(WARNING) and LOG(INFO)
      append an entry to the log of the state.
    - Preprocessor symbols and the enumerators of phi::Backend, which the
      file only names, are fields of the environment record [Env]. *)

From stdpp Require Import gmap strings list fin_maps.
From Stdlib Require Import ZArith.

Local Open Scope Z_scope.

(** ** C++ types named by the file *)

Module std.

(** std::type_index of the types the file compares against; [typeid]
    ignores references and cv-qualifiers, so [const Scalar&] and [Scalar]
    have one index.  [other] stands for any further C++ type. *)
Inductive type_index : Type :=
| bool_t
| int_t
| float_t
| double_t
| int64_t
| float16_t
| DataType_t
| Scalar_t
| vector_int64_t
| ScalarArray_t
| vector_int_t
| DenseTensor_t
| vector_DenseTensor_t
| other (id : N).

#[global] Instance type_index_eq_dec : EqDecision type_index.
Proof. solve_decision. Defined.

End std.

(** phi::Backend is an enum over uint8_t, phi::DataLayout and phi::DataType
    are enums; the file copies and compares them, so each is its number. *)
Definition Backend := Z.
Definition DataLayout := Z.
Definition DataType := Z.

(** paddle::TensorArgDef and paddle::AttributeArgDef of an OpKernelInfo. *)
Record TensorArgDef := {
  backend : Backend;
  layout : DataLayout;
  dtype : DataType;
  is_vector : bool
}.

Record AttributeArgDef := {
  type_index : std.type_index
}.

Module phi.

(** Modelled from the spec: phi::KernelArgsDef (kernel_factory.h), the
    dispatch table's "argument-definition record"; [AppendInput],
    [AppendOutput] and [AppendAttribute] add one entry at the end. *)
Record TensorArgDef := {
  backend : Backend;
  layout : DataLayout;
  dtype : DataType;
  type_index : std.type_index
}.

Record AttributeArgDef := {
  attr_type_index : std.type_index
}.

Record KernelArgsDef := {
  input_defs_ : list TensorArgDef;
  output_defs_ : list TensorArgDef;
  attribute_defs_ : list AttributeArgDef
}.

Definition empty_args_def : KernelArgsDef :=
  {| input_defs_ := []; output_defs_ := []; attribute_defs_ := [] |}.

Definition AppendInput (b : Backend) (l : DataLayout) (d : DataType)
    (ti : std.type_index) (a : KernelArgsDef) : KernelArgsDef :=
  {| input_defs_ := input_defs_ a ++ [Build_TensorArgDef b l d ti];
     output_defs_ := output_defs_ a;
     attribute_defs_ := attribute_defs_ a |}.

Definition AppendOutput (b : Backend) (l : DataLayout) (d : DataType)
    (ti : std.type_index) (a : KernelArgsDef) : KernelArgsDef :=
  {| input_defs_ := input_defs_ a;
     output_defs_ := output_defs_ a ++ [Build_TensorArgDef b l d ti];
     attribute_defs_ := attribute_defs_ a |}.

Definition AppendAttribute (ti : std.type_index) (a : KernelArgsDef)
    : KernelArgsDef :=
  {| input_defs_ := input_defs_ a;
     output_defs_ := output_defs_ a;
     attribute_defs_ := attribute_defs_ a ++ [Build_AttributeArgDef ti] |}.

End phi.

(** ** Tensors, attribute boxes and the two heaps *)

Definition addr := nat.

(** Modelled from the spec: phi::DenseTensor (dense_tensor.h), the
    runtime's tensor behind a "TensorSlot": its meta data and its holder,
    the shared pointer to the allocation with the elements, here the
    allocation's identity.  The file only copies tensors
    ([make_shared<DenseTensor>(t)], [*a = *b]), and a copy has the same meta
    data and the same holder; the bytes of an allocation are not part of
    the model. *)
Record DenseTensor := {
  dims : list Z;
  tensor_dtype : DataType;
  holder : Z
}.

(** Modelled from the spec: paddle::any (any.h), the "attribute value
    box": an attribute value tagged by the type it was built from.
    Floating-point payloads are kept as their bit patterns. *)
Inductive any : Type :=
| any_bool (v : bool)
| any_int (v : Z)
| any_float (bits : Z)
| any_double (bits : Z)
| any_int64_t (v : Z)
| any_float16 (bits : Z)
| any_DataType (v : DataType)
| any_Scalar (v : Z)
| any_vector_int64_t (v : list Z)
| any_ScalarArray (v : list Z)
| any_vector_int (v : list Z)
| any_other (id : N) (v : Z).

Definition any_type (a : any) : std.type_index :=
  match a with
  | any_bool _ => std.bool_t
  | any_int _ => std.int_t
  | any_float _ => std.float_t
  | any_double _ => std.double_t
  | any_int64_t _ => std.int64_t
  | any_float16 _ => std.float16_t
  | any_DataType _ => std.DataType_t
  | any_Scalar _ => std.Scalar_t
  | any_vector_int64_t _ => std.vector_int64_t
  | any_ScalarArray _ => std.ScalarArray_t
  | any_vector_int _ => std.vector_int_t
  | any_other id _ => std.other id
  end.

(** Modelled from the spec: paddle::experimental::Tensor (tensor.h), the
    "PluginTensorHandle": a shared pointer [impl_] to a DenseTensor cell,
    null when default-constructed. *)
Record Tensor := {
  impl : option addr
}.

(** The objects the bridge allocates and hands to the plugin:
    [cells] are the DenseTensor objects behind [std::shared_ptr]
    (make_shared), [objs] the Tensor handles behind [Tensor*] (new). *)
Record Heap := {
  cells : gmap addr DenseTensor;
  objs : gmap addr Tensor
}.

(** Modelled from the spec: paddle::DeviceContext (device_context.h), the
    "device-context value" passed to the plugin: only a stream, unset when
    default-constructed. *)
Record DeviceContext := {
  stream : option Z
}.

(** Modelled from the spec: phi::KernelContext (kernel_context.h), the
    "ExecutionContext": flat arrays of input and output tensor slots (each a
    pointer to a tensor the runtime owns, [None] when null or moved out), a
    flat array of attribute boxes, the range tables from a logical input or
    output index to a half-open range of slot indices, and the stream of the
    accelerator-specific device context. *)
Record KernelContext := {
  inputs_ : list (option addr);
  outputs_ : list (option addr);
  attrs_ : list any;
  input_range_ : list (Z * Z);
  output_range_ : list (Z * Z);
  custom_stream : Z
}.

(** What one call of the plugin's user function was given. *)
Record Invocation := {
  inv_dev_ctx : DeviceContext;
  inv_ins : list Tensor;
  inv_vec_ins : list (list Tensor);
  inv_attrs : list any;
  inv_outs : list addr;
  inv_vec_outs : list (list addr)
}.

Inductive LogEntry : Type :=
| LOG_ERROR_unsupported_backend (b : Backend)
| LOG_WARNING_skipped_lib (dso_lib_path : string)
| LOG_INFO_loaded_lib (dso_lib_path : string).

(** The state a call of the bridge runs in: the context [*ctx], the
    runtime's tensors that the slots point to, the bridge's heap, the log
    and the trace of calls of user functions. *)
Record World := {
  ctx : KernelContext;
  mem : gmap addr DenseTensor;
  heap : Heap;
  log : list LogEntry;
  calls : list Invocation
}.

Definition set_ctx (c : KernelContext) (w : World) : World :=
  {| ctx := c; mem := mem w; heap := heap w; log := log w; calls := calls w |}.

Definition set_mem (m : gmap addr DenseTensor) (w : World) : World :=
  {| ctx := ctx w; mem := m; heap := heap w; log := log w; calls := calls w |}.

Definition set_heap (h : Heap) (w : World) : World :=
  {| ctx := ctx w; mem := mem w; heap := h; log := log w; calls := calls w |}.

Definition add_log (e : LogEntry) (w : World) : World :=
  {| ctx := ctx w; mem := mem w; heap := heap w; log := log w ++ [e];
     calls := calls w |}.

Definition add_call (i : Invocation) (w : World) : World :=
  {| ctx := ctx w; mem := mem w; heap := heap w; log := log w;
     calls := calls w ++ [i] |}.

(** ** The state-and-error monad *)

Inductive ErrorClass : Type :=
| InvalidArgument
| Unimplemented.

Inductive Res (S A : Type) : Type :=
| Ok (a : A) (s : S)
| Throw (e : ErrorClass) (s : S)
| Fault.

Arguments Ok {S A} a s.
Arguments Throw {S A} e s.
Arguments Fault {S A}.

Definition M (S A : Type) : Type := S → Res S A.

Definition bind {S A B} (c : M S A) (k : A → M S B) : M S B :=
  λ s, match c s with
       | Ok a s' => k a s'
       | Throw e s' => Throw e s'
       | Fault => Fault
       end.

#[global] Instance M_ret {S} : MRet (M S) := λ A a s, Ok a s.
#[global] Instance M_bind {S} : MBind (M S) := λ A B k c, bind c k.

Definition throw {S A} (e : ErrorClass) : M S A := λ s, Throw e s.
Definition fault {S A} : M S A := λ _, Fault.
Definition get {S} : M S S := λ s, Ok s s.
Definition modify {S} (f : S → S) : M S unit := λ s, Ok tt (f s).

(** A partial read: the value, or [Fault]. *)
Definition must {S A} (o : option A) : M S A :=
  match o with
  | Some a => mret a
  | None => fault
  end.

(** PADDLE_ENFORCE_*: throw the given error unless the condition holds. *)
Definition PADDLE_ENFORCE {S} (cond : bool) (e : ErrorClass) : M S unit :=
  if cond then mret tt else throw e.

(** A [for] loop over the given indices or elements, carrying the local
    variables the body updates. *)
Fixpoint foldM {S A B} (body : B → A → M S B) (l : list A) (acc : B)
    : M S B :=
  match l with
  | [] => mret acc
  | x :: l' => acc' ← body acc x; foldM body l' acc'
  end.

(** ** Kernel signatures *)

(** The plugin's user function: it receives the device context, the input
    handles, the boxed attributes and the addresses of the output handles,
    and acts on the bridge's heap (it may write the cell behind a handle in
    place, allocate cells, and rebind a handle to another cell).  The two
    vectors of output handle pointers, which it receives by address, are
    taken to come back as they were passed. *)
Definition UserFn : Type :=
  DeviceContext → list Tensor → list (list Tensor) → list any →
  list addr → list (list addr) → Heap → Heap.

(** phi::KernelKey: backend, layout and dtype. *)
Definition KernelKey : Type := Backend * DataLayout * DataType.

(** Modelled from the spec: paddle::OpKernelInfo (op_kernel_info.h), the
    "KernelSignature": op name, the discriminators of the kernel-key, the
    ordered input, output and attribute specs, the user function and the
    raw variadic function pointer. *)
Record OpKernelInfo := {
  op_name_ : string;
  backend_ : Backend;
  layout_ : DataLayout;
  dtype_ : DataType;
  input_defs_ : list TensorArgDef;
  output_defs_ : list TensorArgDef;
  attribute_defs_ : list AttributeArgDef;
  kernel_fn_ : UserFn;
  variadic_kernel_fn_ : Z
}.

Module OpKernelInfoHelper.

(** Modelled from the spec: OpKernelInfoHelper (op_kernel_info_helper.h),
    the read accessors of a signature. *)
Definition GetOpName (info : OpKernelInfo) : string := op_name_ info.
Definition GetBackend (info : OpKernelInfo) : Backend := backend_ info.
Definition GetKernelKey (info : OpKernelInfo) : KernelKey :=
  (backend_ info, layout_ info, dtype_ info).
Definition GetInputDefs (info : OpKernelInfo) : list TensorArgDef :=
  input_defs_ info.
Definition GetOutputDefs (info : OpKernelInfo) : list TensorArgDef :=
  output_defs_ info.
Definition GetAttributeDefs (info : OpKernelInfo) : list AttributeArgDef :=
  attribute_defs_ info.
Definition GetKernelFn (info : OpKernelInfo) : UserFn := kernel_fn_ info.
Definition GetVariadicKernelFn (info : OpKernelInfo) : Z :=
  variadic_kernel_fn_ info.

End OpKernelInfoHelper.

Import OpKernelInfoHelper.

(** ** ParseArgs (lines 39-63) *)

Definition ParseArgs (op_kernel_info : OpKernelInfo)
    (args_def : phi.KernelArgsDef) : phi.KernelArgsDef :=
  let input_defs := GetInputDefs op_kernel_info in
  let output_defs := GetOutputDefs op_kernel_info in
  let attribute_defs := GetAttributeDefs op_kernel_info in
  let args_def :=
    foldl (λ args_def input,
             let type_index :=
               if is_vector input then std.vector_DenseTensor_t
               else std.DenseTensor_t in
             phi.AppendInput (backend input) (layout input) (dtype input)
               type_index args_def)
          args_def input_defs in
  let args_def :=
    foldl (λ args_def output,
             let type_index :=
               if is_vector output then std.vector_DenseTensor_t
               else std.DenseTensor_t in
             phi.AppendOutput (backend output) (layout output) (dtype output)
               type_index args_def)
          args_def output_defs in
  foldl (λ args_def attr, phi.AppendAttribute (type_index attr) args_def)
        args_def attribute_defs.

(** The entry the spec describes for one tensor spec: tagged tensor-list or
    single-tensor by [is_vector], with the spec's backend, layout, dtype. *)
Definition arg_entry (d : TensorArgDef) : phi.TensorArgDef :=
  {| phi.backend := backend d;
     phi.layout := layout d;
     phi.dtype := dtype d;
     phi.type_index :=
       if is_vector d then std.vector_DenseTensor_t else std.DenseTensor_t |}.

Definition attr_entry (a : AttributeArgDef) : phi.AttributeArgDef :=
  {| phi.attr_type_index := type_index a |}.

(** ** Accessors of the kernel context *)

(** A slot of a flat array addressed by an [int]. *)
Definition slot_at {A} (l : list A) (i : Z) : option A :=
  if decide (0 ≤ i) then l !! Z.to_nat i else None.

(** Modelled from the spec: the accessors of phi::KernelContext
    (kernel_context.h).  Sizes are the lengths of the flat arrays; a range
    is read from the range table; a slot is read by its index, and reading
    outside the array, or through a null slot, is a [Fault]. *)
Definition InputsSize : M World nat := w ← get; mret (length (inputs_ (ctx w))).
Definition OutputsSize : M World nat := w ← get; mret (length (outputs_ (ctx w))).
Definition AttrsSize : M World nat := w ← get; mret (length (attrs_ (ctx w))).

Definition InputRangeAt (idx : nat) : M World (Z * Z) :=
  w ← get; must (input_range_ (ctx w) !! idx).

Definition OutputRangeAt (idx : nat) : M World (Z * Z) :=
  w ← get; must (output_range_ (ctx w) !! idx).

Definition InputAt (idx : Z) : M World DenseTensor :=
  w ← get;
  p ← must (slot_at (inputs_ (ctx w)) idx);
  a ← must p;
  must (mem w !! a).

Definition clear_input (idx : Z) (c : KernelContext) : KernelContext :=
  {| inputs_ := <[Z.to_nat idx := None]> (inputs_ c);
     outputs_ := outputs_ c;
     attrs_ := attrs_ c;
     input_range_ := input_range_ c;
     output_range_ := output_range_ c;
     custom_stream := custom_stream c |}.

(** Modelled from the spec: "move the whole slot range out of the
    ExecutionContext (the execution context must not observe these slots
    again this call)": each slot of the range is read and then emptied. *)
Definition MoveInputsBetween (start end_ : Z) : M World (list DenseTensor) :=
  foldM (λ v i,
           t ← InputAt i;
           modify (λ w, set_ctx (clear_input i (ctx w)) w);;
           mret (v ++ [t]))
        (seqZ start (end_ - start)) [].

Definition MutableOutputAt (idx : Z) : M World (option addr) :=
  w ← get; must (slot_at (outputs_ (ctx w)) idx).

Definition MutableOutputBetween (start end_ : Z)
    : M World (list (option addr)) :=
  foldM (λ v i, p ← MutableOutputAt i; mret (v ++ [p]))
        (seqZ start (end_ - start)) [].

(** Modelled from the spec: [AttrAt<T>(idx)] "returns the stored value if
    the box's runtime type identifier matches T"; otherwise, and outside
    the array, it is a [Fault]. *)
Definition AttrAt (T : std.type_index) (idx : nat) : M World any :=
  w ← get;
  a ← must (attrs_ (ctx w) !! idx);
  if decide (any_type a = T) then mret a else fault.

Definition GetDeviceContext_stream : M World Z :=
  w ← get; mret (custom_stream (ctx w)).

(** ** Pointers *)

(** [*p] for a slot pointer of the context: read, and assign. *)
Definition load (p : option addr) : M World DenseTensor :=
  a ← must p; w ← get; must (mem w !! a).

Definition store (p : option addr) (v : DenseTensor) : M World unit :=
  a ← must p;
  w ← get;
  _ ← must (mem w !! a);
  modify (set_mem (<[a := v]> (mem w))).

(** [std::make_shared<phi::DenseTensor>(v)]: a fresh cell holding a copy. *)
Definition make_shared (v : DenseTensor) : M World addr :=
  w ← get;
  let p := fresh (dom (cells (heap w))) in
  modify (set_heap {| cells := <[p := v]> (cells (heap w));
                      objs := objs (heap w) |});;
  mret p.

(** [*(sp.get())] for a retained shared pointer. *)
Definition shared_get (p : addr) : M World DenseTensor :=
  w ← get; must (cells (heap w) !! p).

(** [new paddle::experimental::Tensor()]: a fresh handle with null impl. *)
Definition new_Tensor : M World addr :=
  w ← get;
  let h := fresh (dom (objs (heap w))) in
  modify (set_heap {| cells := cells (heap w);
                      objs := <[h := {| impl := None |}]> (objs (heap w)) |});;
  mret h.

(** [t->set_impl(sp)] through a handle pointer. *)
Definition set_impl (h : addr) (p : addr) : M World unit :=
  w ← get;
  _ ← must (objs (heap w) !! h);
  modify (set_heap {| cells := cells (heap w);
                      objs := <[h := {| impl := Some p |}]> (objs (heap w)) |}).

(** [delete t] of a handle. *)
Definition delete_Tensor (h : addr) : M World unit :=
  modify (λ w, set_heap {| cells := cells (heap w);
                           objs := delete h (objs (heap w)) |} w).

(** [v.back()] and [v.pop_back()] of a std::vector. *)
Definition back {A} (v : list A) : M World A := must (last v).
Definition pop_back {A} (v : list A) : list A := take (length v - 1)%nat v.

(** ** RunKernelFunc (lines 66-296) *)

(** What the file takes from its build and from phi: the preprocessor
    symbols [_LINUX] (lines 15-18) and [PADDLE_WITH_CUSTOM_DEVICE], the
    enumerators [phi::Backend::CPU] and [phi::Backend::ALL_BACKEND], and
    [phi::GetGlobalDeviceType], which answers the empty string for an
    unknown device type id. *)
Record Env := {
  _LINUX : bool;
  PADDLE_WITH_CUSTOM_DEVICE : bool;
  Backend_CPU : Backend;
  Backend_ALL_BACKEND : Backend;
  GetGlobalDeviceType : Z → string
}.

(** [static_cast<size_t>] on a 64-bit target. *)
Definition size_t_sub (a b : Z) : Z := (a - b) mod 2 ^ 64.

Definition set_stream (s : Z) (d : DeviceContext) : DeviceContext :=
  {| stream := Some s |}.

(** The three PADDLE_ENFORCE checks (lines 72-97). *)
Definition check_sizes (op_kernel_info : OpKernelInfo) : M World unit :=
  input_size ← InputsSize;
  output_size ← OutputsSize;
  attr_size ← AttrsSize;
  let input_defs := GetInputDefs op_kernel_info in
  let output_defs := GetOutputDefs op_kernel_info in
  let attribute_defs := GetAttributeDefs op_kernel_info in
  PADDLE_ENFORCE (bool_decide (length input_defs ≤ input_size)%nat)
    InvalidArgument;;
  PADDLE_ENFORCE (bool_decide (length output_defs ≤ output_size)%nat)
    InvalidArgument;;
  PADDLE_ENFORCE (bool_decide (attr_size = length attribute_defs))
    InvalidArgument.

(** Inputs mapping (lines 105-131): one iteration, and the loop. *)
Definition map_input (input_defs : list TensorArgDef)
    (acc : list Tensor * list (list Tensor)) (in_idx : nat)
    : M World (list Tensor * list (list Tensor)) :=
  let '(custom_ins, custom_vec_ins) := acc in
  range ← InputRangeAt in_idx;
  d ← must (input_defs !! in_idx);
  if negb (is_vector d) then
    ctx_tensor ← InputAt range.1;
    p ← make_shared ctx_tensor;
    let custom_t := {| impl := Some p |} in
    mret (custom_ins ++ [custom_t], custom_vec_ins)
  else
    ctx_tensor_vec ← MoveInputsBetween range.1 range.2;
    custom_vec_in ←
      foldM (λ custom_vec_in ctx_tensor,
               p ← make_shared ctx_tensor;
               let custom_t := {| impl := Some p |} in
               mret (custom_vec_in ++ [custom_t]))
            ctx_tensor_vec [];
    mret (custom_ins, custom_vec_ins ++ [custom_vec_in]).

Definition map_inputs (input_defs : list TensorArgDef)
    : M World (list Tensor * list (list Tensor)) :=
  foldM (map_input input_defs) (seq 0 (length input_defs)) ([], []).

(** Attributes mapping (lines 134-187): the chain of comparisons of the
    spec's type index, one iteration, and the loop. *)
Definition map_attr (attribute_defs : list AttributeArgDef)
    (custom_attrs : list any) (attr_idx : nat) : M World (list any) :=
  d ← must (attribute_defs !! attr_idx);
  if decide (type_index d = std.bool_t) then
    arg ← AttrAt std.bool_t attr_idx; mret (custom_attrs ++ [arg])
  else if decide (type_index d = std.int_t) then
    arg ← AttrAt std.int_t attr_idx; mret (custom_attrs ++ [arg])
  else if decide (type_index d = std.float_t) then
    arg ← AttrAt std.float_t attr_idx; mret (custom_attrs ++ [arg])
  else if decide (type_index d = std.double_t) then
    arg ← AttrAt std.double_t attr_idx; mret (custom_attrs ++ [arg])
  else if decide (type_index d = std.int64_t) then
    arg ← AttrAt std.int64_t attr_idx; mret (custom_attrs ++ [arg])
  else if decide (type_index d = std.float16_t) then
    arg ← AttrAt std.float16_t attr_idx; mret (custom_attrs ++ [arg])
  else if decide (type_index d = std.DataType_t) then
    arg ← AttrAt std.DataType_t attr_idx; mret (custom_attrs ++ [arg])
  else if decide (type_index d = std.Scalar_t) then
    arg ← AttrAt std.Scalar_t attr_idx; mret (custom_attrs ++ [arg])
  else if decide (type_index d = std.vector_int64_t) then
    arg ← AttrAt std.vector_int64_t attr_idx; mret (custom_attrs ++ [arg])
  else if decide (type_index d = std.ScalarArray_t) then
    arg ← AttrAt std.ScalarArray_t attr_idx; mret (custom_attrs ++ [arg])
  else if decide (type_index d = std.vector_int_t) then
    arg ← AttrAt std.vector_int_t attr_idx; mret (custom_attrs ++ [arg])
  else
    throw Unimplemented.

Definition map_attrs (attribute_defs : list AttributeArgDef)
    : M World (list any) :=
  foldM (map_attr attribute_defs) (seq 0 (length attribute_defs)) [].

(** The four local vectors of the outputs mapping: the handle pointers
    handed to the plugin ([custom_outs], [custom_vec_outs]) and the shared
    pointers the bridge retains ([custom_outs_ptr], [custom_vec_outs_ptr]). *)
Record OutVectors := {
  custom_outs : list addr;
  custom_vec_outs : list (list addr);
  custom_outs_ptr : list addr;
  custom_vec_outs_ptr : list (list addr)
}.

Definition no_outs : OutVectors :=
  {| custom_outs := []; custom_vec_outs := [];
     custom_outs_ptr := []; custom_vec_outs_ptr := [] |}.

(** Lines 203-207 and 214-218: a new handle on a fresh copy of the slot. *)
Definition new_out_handle (ctx_tensor : option addr) : M World (addr * addr) :=
  custom_t ← new_Tensor;
  v ← load ctx_tensor;
  custom_t_ptr ← make_shared v;
  set_impl custom_t custom_t_ptr;;
  mret (custom_t, custom_t_ptr).

(** Outputs mapping (lines 190-225): one iteration, and the loop. *)
Definition map_output (output_defs : list TensorArgDef)
    (acc : OutVectors) (out_idx : nat) : M World OutVectors :=
  range ← OutputRangeAt out_idx;
  d ← must (output_defs !! out_idx);
  if negb (is_vector d) then
    ctx_tensor ← MutableOutputAt range.1;
    '(custom_t, custom_t_ptr) ← new_out_handle ctx_tensor;
    mret {| custom_outs := custom_outs acc ++ [custom_t];
            custom_vec_outs := custom_vec_outs acc;
            custom_outs_ptr := custom_outs_ptr acc ++ [custom_t_ptr];
            custom_vec_outs_ptr := custom_vec_outs_ptr acc |}
  else
    ctx_tensor_vec ← MutableOutputBetween range.1 range.2;
    '(custom_vec_out, custom_vec_out_ptr) ←
      foldM (λ '(custom_vec_out, custom_vec_out_ptr) ctx_tensor,
               '(custom_t, custom_t_ptr) ← new_out_handle ctx_tensor;
               mret (custom_vec_out ++ [custom_t],
                     custom_vec_out_ptr ++ [custom_t_ptr]))
            ctx_tensor_vec ([], []);
    mret {| custom_outs := custom_outs acc;
            custom_vec_outs := custom_vec_outs acc ++ [custom_vec_out];
            custom_outs_ptr := custom_outs_ptr acc;
            custom_vec_outs_ptr :=
              custom_vec_outs_ptr acc ++ [custom_vec_out_ptr] |}.

Definition map_outputs (output_defs : list TensorArgDef) : M World OutVectors :=
  foldM (map_output output_defs) (seq 0 (length output_defs)) no_outs.

(** Line 258: the call of the user function; the trace records it. *)
Definition call_user_fn (user_kernel_fn : UserFn) (dev_ctx : DeviceContext)
    (custom_ins : list Tensor) (custom_vec_ins : list (list Tensor))
    (custom_attrs : list any) (outs : OutVectors) : M World unit :=
  modify (λ w,
    add_call {| inv_dev_ctx := dev_ctx;
                inv_ins := custom_ins;
                inv_vec_ins := custom_vec_ins;
                inv_attrs := custom_attrs;
                inv_outs := custom_outs outs;
                inv_vec_outs := custom_vec_outs outs |}
      (set_heap (user_kernel_fn dev_ctx custom_ins custom_vec_ins custom_attrs
                   (custom_outs outs) (custom_vec_outs outs) (heap w)) w)).

(** Lines 277-280: the inner loop of the write-back of a list output,
    one iteration and the loop from the last slot down to the first. *)
Definition map_back_slot (ctx_tensor_vec : list (option addr))
    (custom_vec_ptr_out : list addr) (idx : nat) : M World (list addr) :=
  ctx_tensor ← must (ctx_tensor_vec !! idx);
  sp ← back custom_vec_ptr_out;
  v ← shared_get sp;
  store ctx_tensor v;;
  mret (pop_back custom_vec_ptr_out).

Definition map_back_vec (ctx_tensor_vec : list (option addr))
    (custom_vec_ptr_out : list addr) : M World (list addr) :=
  foldM (map_back_slot ctx_tensor_vec)
        (reverse (seq 0 (length ctx_tensor_vec))) custom_vec_ptr_out.

(** Map back (lines 264-285): one iteration over the retained pointers,
    and the loop from the last output down to the first. *)
Definition map_back (output_defs : list TensorArgDef)
    (acc : list addr * list (list addr)) (out_idx : nat)
    : M World (list addr * list (list addr)) :=
  let '(custom_outs_ptr, custom_vec_outs_ptr) := acc in
  range ← OutputRangeAt out_idx;
  d ← must (output_defs !! out_idx);
  if negb (is_vector d) then
    ctx_tensor ← MutableOutputAt range.1;
    sp ← back custom_outs_ptr;
    v ← shared_get sp;
    store ctx_tensor v;;
    mret (pop_back custom_outs_ptr, custom_vec_outs_ptr)
  else
    ctx_tensor_vec ← MutableOutputBetween range.1 range.2;
    custom_vec_ptr_out ← back custom_vec_outs_ptr;
    _ ← map_back_vec ctx_tensor_vec custom_vec_ptr_out;
    mret (custom_outs_ptr, pop_back custom_vec_outs_ptr).

Definition map_back_outputs (output_defs : list TensorArgDef)
    (outs : OutVectors) : M World unit :=
  _ ← foldM (map_back output_defs)
        (reverse (seq 0 (length output_defs)))
        (custom_outs_ptr outs, custom_vec_outs_ptr outs);
  mret tt.

(** Lines 288-295: delete the handles created for the outputs. *)
Definition delete_outs (outs : OutVectors) : M World unit :=
  foldM (λ _ h, delete_Tensor h) (custom_outs outs) tt;;
  foldM (λ _ hs, foldM (λ _ h, delete_Tensor h) hs tt)
        (custom_vec_outs outs) tt.

(** [s.empty()] of a std::string. *)
Definition empty (s : string) : bool :=
  match s with
  | EmptyString => true
  | String _ _ => false
  end.

(** Everything [RunKernelFunc] has built when it reaches the device
    context (line 235): the inputs, the boxed attributes and the outputs. *)
Record Marshaled := {
  custom_ins : list Tensor;
  custom_vec_ins : list (list Tensor);
  custom_attrs : list any;
  outs : OutVectors
}.

(** Lines 72-225: the size checks and the three mappings, in this order. *)
Definition marshal (op_kernel_info : OpKernelInfo) : M World Marshaled :=
  check_sizes op_kernel_info;;
  let input_defs := GetInputDefs op_kernel_info in
  let output_defs := GetOutputDefs op_kernel_info in
  let attribute_defs := GetAttributeDefs op_kernel_info in
  '(custom_ins, custom_vec_ins) ← map_inputs input_defs;
  custom_attrs ← map_attrs attribute_defs;
  outs ← map_outputs output_defs;
  mret {| custom_ins := custom_ins; custom_vec_ins := custom_vec_ins;
          custom_attrs := custom_attrs; outs := outs |}.

Section Bridge.

Context (env : Env).

Definition RunKernelFunc (op_kernel_info : OpKernelInfo) : M World unit :=
  m ← marshal op_kernel_info;
  let output_defs := GetOutputDefs op_kernel_info in
  let dev_ctx := {| stream := None |} in
  let backend := GetBackend op_kernel_info in
  if decide (backend = Backend_CPU env) then
    let user_kernel_fn := GetKernelFn op_kernel_info in
    call_user_fn user_kernel_fn dev_ctx (custom_ins m) (custom_vec_ins m)
      (custom_attrs m) (outs m);;
    map_back_outputs output_defs (outs m);;
    delete_outs (outs m)
  else
    let unsupported :=
      modify (add_log (LOG_ERROR_unsupported_backend backend)) in
    if PADDLE_WITH_CUSTOM_DEVICE env then
      let device_type_id_ := size_t_sub backend (Backend_ALL_BACKEND env) in
      let device_type := GetGlobalDeviceType env device_type_id_ in
      if negb (empty device_type) then
        custom_ctx_stream ← GetDeviceContext_stream;
        let dev_ctx := set_stream custom_ctx_stream dev_ctx in
        mret tt
      else unsupported
    else unsupported.

(** ** Registration (lines 298-355) *)

(** Modelled from the spec: phi::Kernel and phi::KernelFactory
    (kernel_factory.h), the dispatch table: per op name a family of kernels
    by kernel-key; a kernel is its call closure, the raw variadic function
    pointer and its argument-definition record. *)
Record Kernel := {
  fn : M World unit;
  variadic_fn : Z;
  args_def : phi.KernelArgsDef
}.

Record KernelFactory := {
  kernels_ : gmap string (gmap KernelKey Kernel);
  factory_log : list LogEntry
}.

Definition set_kernels (k : gmap string (gmap KernelKey Kernel))
    (f : KernelFactory) : KernelFactory :=
  {| kernels_ := k; factory_log := factory_log f |}.

Definition factory_add_log (e : LogEntry) (f : KernelFactory)
    : KernelFactory :=
  {| kernels_ := kernels_ f; factory_log := factory_log f ++ [e] |}.

(** Modelled from the spec: [HasCompatiblePtenKernel(op_type)], "the
    dispatch table already has at least one compatible kernel family
    registered for this op name". *)
Definition HasCompatiblePtenKernel (op_type : string) : M KernelFactory bool :=
  f ← get; mret (bool_decide (is_Some (kernels_ f !! op_type))).

(** [kernels()[op_type]]: the family of the op; [operator[]] of the hash
    map enters an empty family when the op has none. *)
Definition kernels_at (op_type : string)
    : M KernelFactory (gmap KernelKey Kernel) :=
  f ← get;
  match kernels_ f !! op_type with
  | Some family => mret family
  | None => modify (set_kernels (<[op_type := ∅]> (kernels_ f)));; mret ∅
  end.

(** [kernels()[op_type][kernel_key] = kernel]. *)
Definition install (op_type : string) (kernel_key : KernelKey)
    (kernel : Kernel) : M KernelFactory unit :=
  family ← kernels_at op_type;
  modify (λ f, set_kernels
                 (<[op_type := <[kernel_key := kernel]> family]> (kernels_ f))
                 f).

(** The kernel built for a signature (lines 326-335): the closure that
    runs the bridge on the captured signature, and the parsed arguments. *)
Definition custom_kernel (kernel_info : OpKernelInfo) : Kernel :=
  let kernel_fn := RunKernelFunc kernel_info in
  let variadic_kernel_fn := GetVariadicKernelFn kernel_info in
  {| fn := kernel_fn;
     variadic_fn := variadic_kernel_fn;
     args_def := ParseArgs kernel_info phi.empty_args_def |}.

(** The body of the loop of [RegisterKernelWithMetaInfo] (lines 301-340). *)
Definition register_kernel (kernel_info : OpKernelInfo)
    : M KernelFactory unit :=
  let op_type := GetOpName kernel_info in
  let kernel_key := GetKernelKey kernel_info in
  has ← HasCompatiblePtenKernel op_type;
  PADDLE_ENFORCE (bool_decide (has = true)) InvalidArgument;;
  found ← kernels_at op_type;
  PADDLE_ENFORCE (negb (bool_decide (is_Some (found !! kernel_key))))
    InvalidArgument;;
  install op_type kernel_key (custom_kernel kernel_info).

(** The loop runs over the indices of the vector and reads element [i];
    here it runs over the elements in the same order. *)
Definition RegisterKernelWithMetaInfo (op_kernel_infos : list OpKernelInfo)
    : M KernelFactory unit :=
  foldM (λ _ kernel_info, register_kernel kernel_info) op_kernel_infos tt.

(** paddle::OpKernelInfoMap: its groups in the order the loop of line 351
    visits them. *)
Definition OpKernelInfoMap : Type := list (string * list OpKernelInfo).

Definition RegisterKernelWithMetaInfoMap (op_kernel_info_map : OpKernelInfoMap)
    : M KernelFactory unit :=
  foldM (λ _ pair, RegisterKernelWithMetaInfo pair.2) op_kernel_info_map tt.

(** ** LoadCustomKernelLib (lines 357-375) *)

(** A loaded shared library: its exported symbols; [dlsym] is the lookup,
    null for a symbol the library does not export.  The one symbol the file
    resolves is a function without arguments returning the map. *)
Definition dlsym (dso_handle : gmap string (unit → OpKernelInfoMap))
    (symbol : string) : option (unit → OpKernelInfoMap) :=
  dso_handle !! symbol.

Definition LoadCustomKernelLib (dso_lib_path : string)
    (dso_handle : gmap string (unit → OpKernelInfoMap))
    : M KernelFactory unit :=
  if _LINUX env then
    match dlsym dso_handle "PD_GetOpKernelInfoMap" with
    | None => modify (factory_add_log (LOG_WARNING_skipped_lib dso_lib_path))
    | Some func =>
        let op_kernel_info_map := func tt in
        RegisterKernelWithMetaInfoMap op_kernel_info_map;;
        modify (factory_add_log (LOG_INFO_loaded_lib dso_lib_path))
    end
  else mret tt.

End Bridge.

(** ** Notions used in the statements *)

(** [keeps R c]: whenever [c] returns or throws, the state it leaves is
    related by [R] to the state it started in. *)
Definition keeps {S A} (R : relation S) (c : M S A) : Prop :=
  ∀ s, match c s with
       | Ok _ s' => R s s'
       | Throw _ s' => R s s'
       | Fault => True
       end.

(** [never_throws c]: [c] returns or is a [Fault]. *)
Definition never_throws {S A} (c : M S A) : Prop :=
  ∀ s e s', c s ≠ Throw e s'.

Definition sizes_ok (info : OpKernelInfo) (w : World) : Prop :=
  (length (input_defs_ info) ≤ length (inputs_ (ctx w)))%nat ∧
  (length (output_defs_ info) ≤ length (outputs_ (ctx w)))%nat ∧
  length (attrs_ (ctx w)) = length (attribute_defs_ info).

#[global] Instance sizes_ok_dec info w : Decision (sizes_ok info w).
Proof. unfold sizes_ok. apply _. Defined.

(** What the size checks and the three mappings may change: the input
    slots (a consumed slot stays consumed, a slot still filled holds what it
    held) and the bridge's heap; the rest of the state is as it was. *)
Definition marshal_frame (w w' : World) : Prop :=
  mem w' = mem w ∧ log w' = log w ∧ calls w' = calls w ∧
  outputs_ (ctx w') = outputs_ (ctx w) ∧
  attrs_ (ctx w') = attrs_ (ctx w) ∧
  input_range_ (ctx w') = input_range_ (ctx w) ∧
  output_range_ (ctx w') = output_range_ (ctx w) ∧
  custom_stream (ctx w') = custom_stream (ctx w) ∧
  (∀ k, inputs_ (ctx w) !! k = Some None → inputs_ (ctx w') !! k = Some None) ∧
  (∀ k a, inputs_ (ctx w') !! k = Some (Some a) →
          inputs_ (ctx w) !! k = Some (Some a)).

(** The fixed set of attribute types of the spec: bool, int32, int64,
    float32, float64, half-precision float, dtype-enum, scalar,
    int64-vector, int32-vector, scalar-array. *)
Definition supported (ti : std.type_index) : bool :=
  match ti with
  | std.bool_t | std.int_t | std.int64_t | std.float_t | std.double_t
  | std.float16_t | std.DataType_t | std.Scalar_t | std.vector_int64_t
  | std.vector_int_t | std.ScalarArray_t => true
  | _ => false
  end.

(** The backend of the signature is an accelerator that resolves to a
    known device type (lines 240-244). *)
Definition resolved (env : Env) (info : OpKernelInfo) : Prop :=
  PADDLE_WITH_CUSTOM_DEVICE env = true ∧
  GetGlobalDeviceType env
    (size_t_sub (backend_ info) (Backend_ALL_BACKEND env)) ≠ EmptyString.

(** The kernel the dispatch table holds for an op name and a kernel-key,
    and whether the op has a family of kernels at all. *)
Definition lookup_kernel (f : KernelFactory) (op : string) (key : KernelKey)
    : option Kernel :=
  family ← kernels_ f !! op; family !! key.

Definition has_family (f : KernelFactory) (op : string) : Prop :=
  is_Some (kernels_ f !! op).

Definition registered (f : KernelFactory) (op : string) (key : KernelKey)
    : Prop :=
  is_Some (lookup_kernel f op key).

(** Every kernel of [f] is a kernel of [f'], unchanged. *)
Definition extends (f f' : KernelFactory) : Prop :=
  factory_log f' = factory_log f ∧
  ∀ op key k, lookup_kernel f op key = Some k →
              lookup_kernel f' op key = Some k.

(** ** The outputs of a call, position by position *)

(** The tensors of the runtime that output [i] designates in the context:
    the slot at the start of its range for a single output, the slots of
    its range for a list output. *)
Definition output_slots (c : KernelContext) (defs : list TensorArgDef)
    (i : nat) : option (list (option addr)) :=
  range ← output_range_ c !! i;
  d ← defs !! i;
  if negb (is_vector d) then p ← slot_at (outputs_ c) range.1; Some [p]
  else mapM (slot_at (outputs_ c)) (seqZ range.1 (range.2 - range.1)).

Definition output_tensors (c : KernelContext) (defs : list TensorArgDef)
    (i : nat) : option (list addr) :=
  ps ← output_slots c defs i; mapM id ps.

(** The position of output [i] among the single outputs, which is its
    position in [custom_outs], and among the list outputs, which is its
    position in [custom_vec_outs]. *)
Definition scalar_rank (defs : list TensorArgDef) (i : nat) : nat :=
  length (filter (λ d, is_vector d = false) (take i defs)).

Definition vector_rank (defs : list TensorArgDef) (i : nat) : nat :=
  length (filter (λ d, is_vector d = true) (take i defs)).

(** The handles the plugin receives for output [i], and the cells the
    bridge retains for it. *)
Definition output_handles (defs : list TensorArgDef) (o : OutVectors)
    (i : nat) : option (list addr) :=
  d ← defs !! i;
  if negb (is_vector d) then
    h ← custom_outs o !! scalar_rank defs i; Some [h]
  else custom_vec_outs o !! vector_rank defs i.

Definition output_cells (defs : list TensorArgDef) (o : OutVectors)
    (i : nat) : option (list addr) :=
  d ← defs !! i;
  if negb (is_vector d) then
    c ← custom_outs_ptr o !! scalar_rank defs i; Some [c]
  else custom_vec_outs_ptr o !! vector_rank defs i.

(** No two outputs share storage: the tensors that the declared outputs
    designate are pairwise distinct. *)
Definition all_output_tensors (c : KernelContext) (defs : list TensorArgDef)
    : option (list addr) :=
  xss ← mapM (output_tensors c defs) (seq 0 (length defs)); Some (concat xss).

Definition outputs_independent (c : KernelContext)
    (defs : list TensorArgDef) : Prop :=
  match all_output_tensors c defs with
  | Some xs => NoDup xs
  | None => False
  end.

(** The cells the bridge retains are still allocated in heap [h]: the
    bridge holds a shared pointer to each, so the plugin cannot free them. *)
Definition retained_alive (o : OutVectors) (h : Heap) : Prop :=
  Forall (λ c, is_Some (cells h !! c))
    (custom_outs_ptr o ++ concat (custom_vec_outs_ptr o)).

#[global] Instance outputs_independent_dec c defs :
  Decision (outputs_independent c defs).
Proof. unfold outputs_independent. destruct (all_output_tensors c defs); apply _. Defined.

#[global] Instance retained_alive_dec o h : Decision (retained_alive o h).
Proof. unfold retained_alive. apply _. Defined.

(** What the plugin reads through a handle: the cell its impl points to. *)
Definition read_handle (h : Heap) (t : addr) : option DenseTensor :=
  o ← objs h !! t; c ← impl o; cells h !! c.

(** The state in which the user function of [info] has just returned,
    from the state [w3] the mappings left. *)
Definition heap_after_call (info : OpKernelInfo) (m : Marshaled) (w3 : World)
    : Heap :=
  kernel_fn_ info {| stream := None |} (custom_ins m) (custom_vec_ins m)
    (custom_attrs m) (custom_outs (outs m)) (custom_vec_outs (outs m))
    (heap w3).

Definition invocation_of (m : Marshaled) : Invocation :=
  {| inv_dev_ctx := {| stream := None |};
     inv_ins := custom_ins m;
     inv_vec_ins := custom_vec_ins m;
     inv_attrs := custom_attrs m;
     inv_outs := custom_outs (outs m);
     inv_vec_outs := custom_vec_outs (outs m) |}.

Definition after_call (info : OpKernelInfo) (m : Marshaled) (w3 : World)
    : World :=
  add_call (invocation_of m) (set_heap (heap_after_call info m w3) w3).

(** ** The hypothetical forward write-back *)

(** Follows the spec's words ("a hypothetical forward order"): the outputs
    are walked from the first to the last, the components of a list output
    from the first to the last, and the retained pointers are taken from
    the front of their vectors, so that each slot is again paired with the
    pointer appended for it. *)
Definition map_forward_slot (ctx_tensor_vec : list (option addr))
    (custom_vec_ptr_out : list addr) (idx : nat) : M World (list addr) :=
  ctx_tensor ← must (ctx_tensor_vec !! idx);
  sp ← must (head custom_vec_ptr_out);
  v ← shared_get sp;
  store ctx_tensor v;;
  mret (tail custom_vec_ptr_out).

Definition map_forward_vec (ctx_tensor_vec : list (option addr))
    (custom_vec_ptr_out : list addr) : M World (list addr) :=
  foldM (map_forward_slot ctx_tensor_vec)
        (seq 0 (length ctx_tensor_vec)) custom_vec_ptr_out.

Definition map_forward (output_defs : list TensorArgDef)
    (acc : list addr * list (list addr)) (out_idx : nat)
    : M World (list addr * list (list addr)) :=
  let '(custom_outs_ptr, custom_vec_outs_ptr) := acc in
  range ← OutputRangeAt out_idx;
  d ← must (output_defs !! out_idx);
  if negb (is_vector d) then
    ctx_tensor ← MutableOutputAt range.1;
    sp ← must (head custom_outs_ptr);
    v ← shared_get sp;
    store ctx_tensor v;;
    mret (tail custom_outs_ptr, custom_vec_outs_ptr)
  else
    ctx_tensor_vec ← MutableOutputBetween range.1 range.2;
    custom_vec_ptr_out ← must (head custom_vec_outs_ptr);
    _ ← map_forward_vec ctx_tensor_vec custom_vec_ptr_out;
    mret (custom_outs_ptr, tail custom_vec_outs_ptr).

Definition map_forward_outputs (output_defs : list TensorArgDef)
    (outs : OutVectors) : M World unit :=
  _ ← foldM (map_forward output_defs)
        (seq 0 (length output_defs))
        (custom_outs_ptr outs, custom_vec_outs_ptr outs);
  mret tt.

(** ** The bindings made by the outputs mapping *)

(** One handle the outputs mapping made: the tensor of the runtime it was
    seeded from, the handle, and the cell behind it. *)
Record Binding := {
  b_tensor : addr;
  b_handle : addr;
  b_cell : addr
}.

(** What the outputs mapping made for one output. *)
Inductive OutBinding : Type :=
| Single (b : Binding)
| Many (bs : list Binding).

Definition bindings_of (e : OutBinding) : list Binding :=
  match e with
  | Single b => [b]
  | Many bs => bs
  end.

Definition flat (T : list OutBinding) : list Binding :=
  concat (bindings_of <$> T).

Definition singles {A} (f : Binding → A) (T : list OutBinding) : list A :=
  concat ((λ e, match e with Single b => [f b] | Many _ => [] end) <$> T).

Definition manys {A} (f : Binding → A) (T : list OutBinding)
    : list (list A) :=
  concat ((λ e, match e with Single _ => [] | Many bs => [f <$> bs] end)
            <$> T).

(** The binding [e] is the one of output [i]: it has the kind the spec of
    the output declares and its tensors are the ones the slots of the
    output point to. *)
Definition entry_ok (outputs : list (option addr)) (ranges : list (Z * Z))
    (defs : list TensorArgDef) (i : nat) (e : OutBinding) : Prop :=
  ∃ d r,
    defs !! i = Some d ∧ ranges !! i = Some r ∧
    match e with
    | Single b =>
        is_vector d = false ∧
        slot_at outputs r.1 = Some (Some (b_tensor b))
    | Many bs =>
        is_vector d = true ∧
        mapM (slot_at outputs) (seqZ r.1 (r.2 - r.1))
        = Some (Some ∘ b_tensor <$> bs)
    end.

(** [*x = *c] for a binding, on the tensors of the runtime. *)
Definition assign (cs : gmap addr DenseTensor) (m : gmap addr DenseTensor)
    (b : Binding) : gmap addr DenseTensor :=
  match cs !! b_cell b with
  | Some v => <[b_tensor b := v]> m
  | None => m
  end.

(** Handle [b_handle b] is bound to cell [b_cell b] in heap [h]. *)
Definition bound (h : Heap) (b : Binding) : Prop :=
  objs h !! b_handle b = Some {| impl := Some (b_cell b) |}.

(** Every handle of [w] is a handle of [w'], bound as it was. *)
Definition objs_grow (w w' : World) : Prop :=
  ∀ t o, objs (heap w) !! t = Some o → objs (heap w') !! t = Some o.

(** The tensors and the cells of the bindings are allocated in [s]. *)
Definition ready (bs : list Binding) (s : World) : Prop :=
  Forall (λ b, is_Some (mem s !! b_tensor b) ∧
               is_Some (cells (heap s) !! b_cell b)) bs.

(** The tensors of the runtime after the assignments of [bs], in order. *)
Definition written (s : World) (bs : list Binding) : World :=
  set_mem (foldl (assign (cells (heap s))) (mem s) bs) s.

(** The kind of a binding. *)
Definition is_many (e : OutBinding) : bool :=
  match e with
  | Single _ => false
  | Many _ => true
  end.

(** ** Concrete signatures, contexts and plugins *)

Definition tensor (n : Z) : DenseTensor :=
  {| dims := [1]; tensor_dtype := 0; holder := n |}.

(** A plugin writes [v] in place into the cell behind handle [t]. *)
Definition write_through (t : addr) (v : DenseTensor) (hp : Heap) : Heap :=
  match objs hp !! t with
  | Some {| impl := Some c |} =>
      {| cells := <[c := v]> (cells hp); objs := objs hp |}
  | _ => hp
  end.

(** A plugin rebinds handle [t] to a cell of its own holding [v]. *)
Definition rebind (t : addr) (v : DenseTensor) (hp : Heap) : Heap :=
  let c := fresh (dom (cells hp)) in
  {| cells := <[c := v]> (cells hp);
     objs := <[t := {| impl := Some c |}]> (objs hp) |}.

(** A Linux build with custom devices; CPU is backend 1, ALL_BACKEND is 0,
    and device type id 8 is the one known custom device. *)
Definition ex_env : Env :=
  {| _LINUX := true;
     PADDLE_WITH_CUSTOM_DEVICE := true;
     Backend_CPU := 1;
     Backend_ALL_BACKEND := 0;
     GetGlobalDeviceType :=
       λ id, if decide (id = 8) then "npu"%string else EmptyString |}.

Definition ex_env_other_platform : Env :=
  {| _LINUX := false;
     PADDLE_WITH_CUSTOM_DEVICE := false;
     Backend_CPU := 1;
     Backend_ALL_BACKEND := 0;
     GetGlobalDeviceType := λ _, EmptyString |}.

(** The plugin writes a marker of its own into every output handle. *)
Definition ex_mark : UserFn :=
  λ _ _ _ _ outs vec_outs hp,
    let hp :=
      foldl (λ hp '(i, t), write_through t (tensor (100 + Z.of_nat i)) hp)
            hp (imap pair outs) in
    foldl (λ hp '(i, ts),
             foldl (λ hp '(j, t),
                      write_through t
                        (tensor (200 + 10 * Z.of_nat i + Z.of_nat j)) hp)
                   hp (imap pair ts))
          hp (imap pair vec_outs).

Definition ex_signature (b : Backend) (attr : std.type_index) (f : UserFn)
    : OpKernelInfo :=
  {| op_name_ := "dot";
     backend_ := b;
     layout_ := 0;
     dtype_ := 0;
     input_defs_ :=
       [ {| backend := b; layout := 0; dtype := 0; is_vector := false |};
         {| backend := b; layout := 0; dtype := 0; is_vector := false |};
         {| backend := b; layout := 0; dtype := 0; is_vector := true |} ];
     output_defs_ :=
       [ {| backend := b; layout := 0; dtype := 0; is_vector := true |};
         {| backend := b; layout := 0; dtype := 0; is_vector := false |} ];
     attribute_defs_ := [ {| type_index := attr |} ];
     kernel_fn_ := f;
     variadic_kernel_fn_ := 0 |}.

(** Two single inputs, a list input of three tensors, one int attribute,
    a list output of two tensors and a single output. *)
Definition ex_ctx : KernelContext :=
  {| inputs_ := [Some 100; Some 101; Some 102; Some 103; Some 104]%nat;
     outputs_ := [Some 105; Some 106; Some 107]%nat;
     attrs_ := [any_int 7];
     input_range_ := [(0, 1); (1, 2); (2, 5)];
     output_range_ := [(0, 2); (2, 3)];
     custom_stream := 42 |}.

Definition ex_world : World :=
  {| ctx := ex_ctx;
     mem := list_to_map
              (imap (λ i v, ((100 + i)%nat, tensor v))
                 [10; 11; 12; 13; 14; 15; 16; 17]);
     heap := {| cells := ∅; objs := ∅ |};
     log := [];
     calls := [] |}.

(** The same context with its input slots missing. *)
Definition ex_world_no_inputs : World :=
  {| ctx := {| inputs_ := [];
               outputs_ := outputs_ ex_ctx;
               attrs_ := attrs_ ex_ctx;
               input_range_ := input_range_ ex_ctx;
               output_range_ := output_range_ ex_ctx;
               custom_stream := custom_stream ex_ctx |};
     mem := mem ex_world;
     heap := heap ex_world;
     log := [];
     calls := [] |}.

(** A signature with one single output whose plugin rebinds the output
    handle to a tensor of its own, and a context for it. *)
Definition ex_rebind_signature : OpKernelInfo :=
  {| op_name_ := "fill";
     backend_ := 1;
     layout_ := 0;
     dtype_ := 0;
     input_defs_ := [];
     output_defs_ :=
       [ {| backend := 1; layout := 0; dtype := 0; is_vector := false |} ];
     attribute_defs_ := [];
     kernel_fn_ :=
       λ _ _ _ _ outs _ hp,
         match outs with
         | t :: _ => rebind t (tensor 99) hp
         | [] => hp
         end;
     variadic_kernel_fn_ := 0 |}.

Definition ex_rebind_world : World :=
  {| ctx := {| inputs_ := [];
               outputs_ := [Some 50%nat];
               attrs_ := [];
               input_range_ := [];
               output_range_ := [(0, 1)];
               custom_stream := 0 |};
     mem := {[ 50%nat := tensor 15 ]};
     heap := {| cells := ∅; objs := ∅ |};
     log := [];
     calls := [] |}.

(** A dispatch table in which the op "dot" has a family with one built-in
    kernel, under another kernel-key than the examples use. *)
Definition ex_builtin : Kernel :=
  {| fn := mret tt; variadic_fn := 0; args_def := phi.empty_args_def |}.

Definition ex_factory : KernelFactory :=
  {| kernels_ := {[ "dot"%string := {[ (2, 0, 0) := ex_builtin ]} ]};
     factory_log := [] |}.

(** A signature for an op that the dispatch table does not know. *)
Definition ex_unknown_op : OpKernelInfo :=
  {| op_name_ := "my_new_op";
     backend_ := 1;
     layout_ := 0;
     dtype_ := 0;
     input_defs_ := [];
     output_defs_ := [];
     attribute_defs_ := [];
     kernel_fn_ := λ _ _ _ _ _ _ hp, hp;
     variadic_kernel_fn_ := 0 |}.

(** An accelerator backend that resolves to the device type "npu", one
    that resolves to nothing, and a type index outside the fixed set. *)
Definition ex_npu : Backend := 8.
Definition ex_unknown_backend : Backend := 3.
Definition ex_string_t : std.type_index := std.other 0.

(** A batch whose first signature can be registered in [ex_factory] and
    whose second cannot, and the table with the first one installed. *)
Definition ex_good : OpKernelInfo := ex_signature 1 std.int_t ex_mark.

Definition ex_batch : list OpKernelInfo := [ex_good; ex_unknown_op].

Definition ex_factory_after : KernelFactory :=
  set_kernels
    (<["dot"%string :=
         <[GetKernelKey ex_good := custom_kernel ex_env ex_good]>
           {[ (2, 0, 0) := ex_builtin ]}]> (kernels_ ex_factory))
    ex_factory.
(** * Properties *)

(** ** The monad *)

Lemma bind_Ok {S A B} (c : M S A) (k : A → M S B) s a s' :
  c s = Ok a s' → (c ≫= k) s = k a s'.
Proof. intros H. unfold mbind, M_bind, bind. by rewrite H. Qed.

Lemma bind_Throw {S A B} (c : M S A) (k : A → M S B) s e s' :
  c s = Throw e s' → (c ≫= k) s = Throw e s'.
Proof. intros H. unfold mbind, M_bind, bind. by rewrite H. Qed.

Lemma bind_Fault {S A B} (c : M S A) (k : A → M S B) s :
  c s = Fault → (c ≫= k) s = Fault.
Proof. intros H. unfold mbind, M_bind, bind. by rewrite H. Qed.

Lemma bind_eq {S A B} (c : M S A) (k : A → M S B) s :
  (c ≫= k) s
  = match c s with
    | Ok a s' => k a s'
    | Throw e s' => Throw e s'
    | Fault => Fault
    end.
Proof. reflexivity. Qed.

Lemma bind_inv_Ok {S A B} (c : M S A) (k : A → M S B) s b s'' :
  (c ≫= k) s = Ok b s'' → ∃ a s', c s = Ok a s' ∧ k a s' = Ok b s''.
Proof.
  unfold mbind, M_bind, bind. destruct (c s) as [a s'|e s'|]; [eauto|done..].
Qed.

Lemma bind_inv_Throw {S A B} (c : M S A) (k : A → M S B) s e s'' :
  (c ≫= k) s = Throw e s'' →
  c s = Throw e s'' ∨ ∃ a s', c s = Ok a s' ∧ k a s' = Throw e s''.
Proof.
  unfold mbind, M_bind, bind.
  destruct (c s) as [a s'|e' s'|]; intros E.
  - right. by exists a, s'.
  - injection E as -> ->. by left.
  - done.
Qed.

Lemma foldM_app {S A B} (body : B → A → M S B) l1 l2 acc s :
  foldM body (l1 ++ l2) acc s = (foldM body l1 acc ≫= foldM body l2) s.
Proof.
  revert acc s. induction l1 as [|x l1 IH]; intros acc s; simpl.
  - reflexivity.
  - unfold mbind, M_bind, bind in *.
    destruct (body acc x s) as [a s'|e s'|]; [apply IH|done..].
Qed.

Lemma foldM_snoc {S A B} (body : B → A → M S B) l x acc s :
  foldM body (l ++ [x]) acc s = (foldM body l acc ≫= λ acc', body acc' x) s.
Proof.
  rewrite foldM_app. unfold mbind, M_bind, bind.
  destruct (foldM body l acc s) as [a s'|e s'|]; [simpl|done..].
  unfold mbind, M_bind, bind, mret, M_ret. by destruct (body a x s').
Qed.


Section keeps.

Context {S : Type} (R : relation S) `{!PreOrder R}.

Lemma keeps_ret {A} (a : A) : keeps R (mret a : M S A).
Proof. intros s. simpl. reflexivity. Qed.

Lemma keeps_throw {A} e : keeps R (throw e : M S A).
Proof. intros s. simpl. reflexivity. Qed.

Lemma keeps_fault {A} : keeps R (fault : M S A).
Proof. by intros s. Qed.

Lemma keeps_get : keeps R (get : M S S).
Proof. intros s. simpl. reflexivity. Qed.

Lemma keeps_must {A} (o : option A) : keeps R (must o : M S A).
Proof. destruct o; [apply keeps_ret|apply keeps_fault]. Qed.

Lemma keeps_modify (f : S → S) : (∀ s, R s (f s)) → keeps R (modify f).
Proof. intros H s. apply H. Qed.

Lemma keeps_bind {A B} (c : M S A) (k : A → M S B) :
  keeps R c → (∀ a, keeps R (k a)) → keeps R (c ≫= k).
Proof.
  intros Hc Hk s. specialize (Hc s). unfold mbind, M_bind, bind.
  destruct (c s) as [a s'|e s'|]; [|done..].
  specialize (Hk a s'). destruct (k a s'); [etrans; eauto..|done].
Qed.

Lemma keeps_enforce cond e : keeps R (PADDLE_ENFORCE cond e : M S unit).
Proof. destruct cond; [apply keeps_ret|apply keeps_throw]. Qed.

Lemma keeps_foldM {A B} (body : B → A → M S B) l acc :
  (∀ acc x, keeps R (body acc x)) → keeps R (foldM body l acc).
Proof.
  intros Hb. revert acc. induction l as [|x l IH]; intros acc; simpl.
  - apply keeps_ret.
  - apply keeps_bind; [apply Hb|apply IH].
Qed.

End keeps.

Lemma keeps_Ok {S A} (R : relation S) (c : M S A) s a s' :
  keeps R c → c s = Ok a s' → R s s'.
Proof. intros H E. specialize (H s). by rewrite E in H. Qed.

Lemma keeps_Throw {S A} (R : relation S) (c : M S A) s e s' :
  keeps R c → c s = Throw e s' → R s s'.
Proof. intros H E. specialize (H s). by rewrite E in H. Qed.


Lemma never_throws_bind {S A B} (c : M S A) (k : A → M S B) :
  never_throws c → (∀ a, never_throws (k a)) → never_throws (c ≫= k).
Proof.
  intros Hc Hk s e s' E. apply bind_inv_Throw in E as [E|(a & s1 & _ & E)].
  - by apply Hc in E.
  - by apply Hk in E.
Qed.

Lemma never_throws_ret {S A} (a : A) : never_throws (mret a : M S A).
Proof. by intros s e s'. Qed.

Lemma never_throws_fault {S A} : never_throws (fault : M S A).
Proof. by intros s e s'. Qed.

Lemma never_throws_get {S} : never_throws (get : M S S).
Proof. by intros s e s'. Qed.

Lemma never_throws_modify {S} (f : S → S) : never_throws (modify f).
Proof. by intros s e s'. Qed.

Lemma never_throws_must {S A} (o : option A) : never_throws (must o : M S A).
Proof. destruct o; [apply never_throws_ret|apply never_throws_fault]. Qed.

Lemma never_throws_foldM {S A B} (body : B → A → M S B) l acc :
  (∀ acc x, never_throws (body acc x)) → never_throws (foldM body l acc).
Proof.
  intros Hb. revert acc. induction l as [|x l IH]; intros acc; simpl.
  - apply never_throws_ret.
  - apply never_throws_bind; [apply Hb|apply IH].
Qed.

(** ** ParseArgs *)

Lemma foldl_AppendInput (l : list TensorArgDef) (a : phi.KernelArgsDef) :
  foldl (λ args_def input,
           let type_index :=
             if is_vector input then std.vector_DenseTensor_t
             else std.DenseTensor_t in
           phi.AppendInput (backend input) (layout input) (dtype input)
             type_index args_def) a l
  = {| phi.input_defs_ := phi.input_defs_ a ++ (arg_entry <$> l);
       phi.output_defs_ := phi.output_defs_ a;
       phi.attribute_defs_ := phi.attribute_defs_ a |}.
Proof.
  revert a. induction l as [|d l IH]; intros [i o t]; simpl.
  - by rewrite app_nil_r.
  - rewrite IH. simpl. by rewrite <- app_assoc.
Qed.

Lemma foldl_AppendOutput (l : list TensorArgDef) (a : phi.KernelArgsDef) :
  foldl (λ args_def output,
           let type_index :=
             if is_vector output then std.vector_DenseTensor_t
             else std.DenseTensor_t in
           phi.AppendOutput (backend output) (layout output) (dtype output)
             type_index args_def) a l
  = {| phi.input_defs_ := phi.input_defs_ a;
       phi.output_defs_ := phi.output_defs_ a ++ (arg_entry <$> l);
       phi.attribute_defs_ := phi.attribute_defs_ a |}.
Proof.
  revert a. induction l as [|d l IH]; intros [i o t]; simpl.
  - by rewrite app_nil_r.
  - rewrite IH. simpl. by rewrite <- app_assoc.
Qed.

Lemma foldl_AppendAttribute (l : list AttributeArgDef) (a : phi.KernelArgsDef) :
  foldl (λ args_def attr, phi.AppendAttribute (type_index attr) args_def) a l
  = {| phi.input_defs_ := phi.input_defs_ a;
       phi.output_defs_ := phi.output_defs_ a;
       phi.attribute_defs_ := phi.attribute_defs_ a ++ (attr_entry <$> l) |}.
Proof.
  revert a. induction l as [|d l IH]; intros [i o t]; simpl.
  - by rewrite app_nil_r.
  - rewrite IH. simpl. by rewrite <- app_assoc.
Qed.

(** C8.  [ParseArgs] is a total function of the signature (it has no
    failing outcome): to the record it is given it appends, in order, one
    entry per input spec, tagged tensor-list or single-tensor by
    [is_vector] and carrying the spec's backend, layout and dtype, the same
    for each output spec, and each attribute spec's type index unchanged;
    on the fresh record of a new kernel the result is exactly these entries. *)
Theorem ParseArgs_entries (info : OpKernelInfo) (a : phi.KernelArgsDef) :
  ParseArgs info a
  = {| phi.input_defs_ := phi.input_defs_ a ++ (arg_entry <$> input_defs_ info);
       phi.output_defs_ :=
         phi.output_defs_ a ++ (arg_entry <$> output_defs_ info);
       phi.attribute_defs_ :=
         phi.attribute_defs_ a ++ (attr_entry <$> attribute_defs_ info) |}
  ∧ ParseArgs info phi.empty_args_def
  = {| phi.input_defs_ := arg_entry <$> input_defs_ info;
       phi.output_defs_ := arg_entry <$> output_defs_ info;
       phi.attribute_defs_ := attr_entry <$> attribute_defs_ info |}.
Proof.
  assert (∀ a, ParseArgs info a
    = {| phi.input_defs_ :=
           phi.input_defs_ a ++ (arg_entry <$> input_defs_ info);
         phi.output_defs_ :=
           phi.output_defs_ a ++ (arg_entry <$> output_defs_ info);
         phi.attribute_defs_ :=
           phi.attribute_defs_ a ++ (attr_entry <$> attribute_defs_ info) |})
    as H.
  { intros a'. unfold ParseArgs, GetInputDefs, GetOutputDefs, GetAttributeDefs.
    cbv zeta.
    by rewrite foldl_AppendAttribute, foldl_AppendOutput, foldl_AppendInput. }
  split; [apply H|]. by rewrite H.
Qed.

(** ** The size checks *)


Lemma check_sizes_eq info w :
  check_sizes info w
  = if decide (sizes_ok info w) then Ok tt w else Throw InvalidArgument w.
Proof.
  unfold check_sizes, sizes_ok, GetInputDefs, GetOutputDefs, GetAttributeDefs,
    InputsSize, OutputsSize, AttrsSize, PADDLE_ENFORCE, get, throw.
  unfold mbind, M_bind, bind, mret, M_ret.
  destruct (decide _) as [(H1 & H2 & H3)|H].
  - rewrite !bool_decide_eq_true_2 by done. reflexivity.
  - repeat case_bool_decide; try reflexivity. by destruct H.
Qed.

(** C3.  When the context has fewer input slots than the signature has
    input specs, or fewer output slots than output specs, or a number of
    attributes other than the number of attribute specs, [RunKernelFunc]
    throws an InvalidArgument error from the state it was called in: nothing
    was changed, and the trace of calls of the user function in particular. *)
Theorem RunKernelFunc_size_violation env info w :
  (length (inputs_ (ctx w)) < length (input_defs_ info))%nat ∨
  (length (outputs_ (ctx w)) < length (output_defs_ info))%nat ∨
  length (attrs_ (ctx w)) ≠ length (attribute_defs_ info) →
  RunKernelFunc env info w = Throw InvalidArgument w.
Proof.
  intros H. unfold RunKernelFunc, marshal.
  apply bind_Throw, bind_Throw. rewrite check_sizes_eq.
  destruct (decide _) as [(H1 & H2 & H3)|]; [|done]. lia.
Qed.

(** ** What marshaling leaves unchanged *)

#[global] Instance marshal_frame_preorder : PreOrder marshal_frame.
Proof.
  split.
  - by intros w.
  - intros w1 w2 w3 (?&?&?&?&?&?&?&?&H12&G12) (?&?&?&?&?&?&?&?&H23&G23).
    repeat split; try congruence.
    + intros k Hk. by apply H23, H12.
    + intros k a Hk. by apply G12, G23.
Qed.

Ltac keeps_side :=
  lazymatch goal with
  | |- PreOrder _ => apply _
  | |- _ => intros
  end.

Ltac keeps_step :=
  lazymatch goal with
  | |- keeps ?R _ =>
      first
        [ apply (keeps_ret R) | apply (keeps_get R) | apply (keeps_must R)
        | apply (keeps_fault R) | apply (keeps_throw R)
        | apply (keeps_enforce R) | apply (keeps_bind R)
        | apply (keeps_foldM R) ]
  end;
  keeps_side.

Lemma frame_set_heap h w : marshal_frame w (set_heap h w).
Proof. by repeat split. Qed.

Lemma frame_clear_input i w :
  marshal_frame w (set_ctx (clear_input i (ctx w)) w).
Proof.
  repeat split; try done; simpl.
  - intros k Hk. destruct (decide (Z.to_nat i = k)) as [->|Hne].
    + apply list_lookup_insert_eq. by eapply lookup_lt_Some.
    + by rewrite list_lookup_insert_ne.
  - intros k a Hk. destruct (decide (Z.to_nat i = k)) as [E|Hne].
    + subst k.
      apply list_lookup_insert_Some in Hk as [(_ & ? & _)|(? & _)]; done.
    + by rewrite list_lookup_insert_ne in Hk.
Qed.

Lemma keeps_clear_input i :
  keeps marshal_frame (modify (λ w, set_ctx (clear_input i (ctx w)) w)).
Proof. apply keeps_modify. intros w. apply frame_clear_input. Qed.

Lemma keeps_InputAt i : keeps marshal_frame (InputAt i).
Proof. unfold InputAt. repeat keeps_step. Qed.

Lemma keeps_MoveInputsBetween a b :
  keeps marshal_frame (MoveInputsBetween a b).
Proof.
  unfold MoveInputsBetween. repeat keeps_step; apply keeps_clear_input.
Qed.

Lemma keeps_make_shared v : keeps marshal_frame (make_shared v).
Proof.
  unfold make_shared. repeat keeps_step.
Qed.

Lemma keeps_new_Tensor : keeps marshal_frame new_Tensor.
Proof.
  unfold new_Tensor. repeat keeps_step.
Qed.

Lemma keeps_set_impl h p : keeps marshal_frame (set_impl h p).
Proof.
  unfold set_impl. repeat keeps_step.
Qed.

Lemma keeps_load p : keeps marshal_frame (load p).
Proof. unfold load. repeat keeps_step. Qed.

Lemma keeps_MutableOutputAt i : keeps marshal_frame (MutableOutputAt i).
Proof. unfold MutableOutputAt. repeat keeps_step. Qed.

Lemma keeps_MutableOutputBetween a b :
  keeps marshal_frame (MutableOutputBetween a b).
Proof.
  unfold MutableOutputBetween. repeat keeps_step.
Qed.

Lemma keeps_AttrAt T i : keeps marshal_frame (AttrAt T i).
Proof. unfold AttrAt. repeat keeps_step. case_decide; keeps_step. Qed.

Lemma keeps_check_sizes info : keeps marshal_frame (check_sizes info).
Proof.
  intros w. rewrite check_sizes_eq. by destruct (decide _).
Qed.

Lemma keeps_map_input defs acc i : keeps marshal_frame (map_input defs acc i).
Proof.
  unfold map_input, InputRangeAt. destruct acc as [ci cvi].
  repeat keeps_step. destruct (negb _); repeat keeps_step;
    apply keeps_clear_input.
Qed.

Lemma keeps_map_attr defs acc i : keeps marshal_frame (map_attr defs acc i).
Proof.
  unfold map_attr. repeat keeps_step.
  repeat case_decide; repeat keeps_step; case_decide; keeps_step.
Qed.

Lemma keeps_new_out_handle p : keeps marshal_frame (new_out_handle p).
Proof. unfold new_out_handle. repeat keeps_step. Qed.

Ltac split_pairs :=
  repeat match goal with
    | |- context [let '(_, _) := ?p in _] => destruct p
    end.

Lemma keeps_map_output defs acc i : keeps marshal_frame (map_output defs acc i).
Proof.
  unfold map_output, OutputRangeAt. repeat keeps_step.
  destruct (negb _); repeat (repeat keeps_step; split_pairs).
Qed.

Lemma keeps_marshal info : keeps marshal_frame (marshal info).
Proof.
  unfold marshal. keeps_step; [apply keeps_check_sizes|].
  keeps_step; [apply keeps_foldM; [apply _|]; intros; apply keeps_map_input|].
  split_pairs.
  keeps_step; [apply keeps_foldM; [apply _|]; intros; apply keeps_map_attr|].
  keeps_step; [apply keeps_foldM; [apply _|]; intros; apply keeps_map_output|].
  keeps_step.
Qed.

(** ** The device context selection *)

Lemma RunKernelFunc_marshal_Throw env info w e w' :
  marshal info w = Throw e w' → RunKernelFunc env info w = Throw e w'.
Proof. intros H. unfold RunKernelFunc. by apply bind_Throw. Qed.

Lemma RunKernelFunc_marshal_Fault env info w :
  marshal info w = Fault → RunKernelFunc env info w = Fault.
Proof. intros H. unfold RunKernelFunc. by apply bind_Fault. Qed.

Lemma empty_spec s : empty s = true ↔ s = EmptyString.
Proof. by destruct s. Qed.

(** C5, as amended.  For every call that passes the size checks and the
    three mappings and whose signature declares a backend other than CPU
    that does not resolve to a known device type, [RunKernelFunc] logs the
    unsupported backend and returns: no error, the user function is not
    called, and the output slots and the tensors they point to are as they
    were. *)
Theorem RunKernelFunc_unresolved_backend env info w m w3 :
  marshal info w = Ok m w3 →
  backend_ info ≠ Backend_CPU env →
  ¬ resolved env info →
  ∃ w',
    RunKernelFunc env info w = Ok tt w' ∧
    log w' = log w ++ [LOG_ERROR_unsupported_backend (backend_ info)] ∧
    calls w' = calls w ∧
    outputs_ (ctx w') = outputs_ (ctx w) ∧
    mem w' = mem w.
Proof.
  intros Hm Hcpu Hres.
  destruct (keeps_Ok _ _ _ _ _ (keeps_marshal info) Hm)
    as (Hmem & Hlog & Hcalls & Houts & _).
  exists (add_log (LOG_ERROR_unsupported_backend (backend_ info)) w3).
  split; [|simpl; by rewrite Hlog].
  unfold RunKernelFunc. rewrite (bind_Ok _ _ _ _ _ Hm).
  unfold GetBackend. cbv zeta. rewrite decide_False by done.
  destruct (PADDLE_WITH_CUSTOM_DEVICE env) eqn:Hflag; [|done].
  destruct (empty _) eqn:Hempty; [done|].
  destruct Hres. split; [done|]. intros E. apply empty_spec in E. congruence.
Qed.

(** C2, what the code does.  For every call that passes the size checks
    and the three mappings and whose signature declares a backend other than
    CPU that resolves to a known device type, [RunKernelFunc] returns right
    after the stream is set on the device context (the [return] of line
    248): the state is the one the mappings left, and the user function was
    not called. *)
Theorem RunKernelFunc_resolved_backend_skips_call env info w m w3 :
  marshal info w = Ok m w3 →
  backend_ info ≠ Backend_CPU env →
  resolved env info →
  RunKernelFunc env info w = Ok tt w3 ∧
  calls w3 = calls w ∧
  mem w3 = mem w.
Proof.
  intros Hm Hcpu [Hflag Hdev].
  destruct (keeps_Ok _ _ _ _ _ (keeps_marshal info) Hm)
    as (Hmem & Hlog & Hcalls & Houts & _).
  split; [|done].
  unfold RunKernelFunc. rewrite (bind_Ok _ _ _ _ _ Hm).
  unfold GetBackend. cbv zeta. rewrite decide_False by done.
  rewrite Hflag. destruct (empty _) eqn:Hempty; [|done].
  by apply empty_spec in Hempty.
Qed.

(** ** Attributes mapping *)

Lemma AttrAt_eq T i w :
  AttrAt T i w
  = match attrs_ (ctx w) !! i with
    | Some a => if decide (any_type a = T) then Ok a w else Fault
    | None => Fault
    end.
Proof.
  unfold AttrAt, get, must, mbind, M_bind, bind.
  destruct (attrs_ (ctx w) !! i) as [a|]; [|done]. simpl.
  by case_decide.
Qed.

(** One iteration of the attributes mapping: an attribute spec outside the
    fixed set throws Unimplemented; a spec of the set boxes the attribute of
    the slot when the slot holds a value of that type. *)
Lemma map_attr_eq defs acc i w :
  map_attr defs acc i w
  = match defs !! i with
    | None => Fault
    | Some d =>
        if supported (type_index d) then
          match attrs_ (ctx w) !! i with
          | Some a =>
              if decide (any_type a = type_index d) then Ok (acc ++ [a]) w
              else Fault
          | None => Fault
          end
        else Throw Unimplemented w
    end.
Proof.
  unfold map_attr. unfold mbind at 1. unfold M_bind, bind, must.
  destruct (defs !! i) as [[ti]|]; [|done]. simpl.
  destruct ti; simpl; try reflexivity;
    unfold mbind, M_bind, bind; rewrite AttrAt_eq;
    destruct (attrs_ (ctx w) !! i) as [a|]; try reflexivity;
    case_decide; reflexivity.
Qed.

Lemma keeps_eq_map_attrs defs : keeps eq (map_attrs defs).
Proof.
  unfold map_attrs. apply keeps_foldM; [apply _|]. intros acc i w.
  rewrite map_attr_eq.
  destruct (defs !! i) as [d|]; [|done].
  destruct (supported _); [|done].
  destruct (attrs_ (ctx w) !! i) as [a|]; [|done].
  by case_decide.
Qed.

Lemma foldM_Ok_each {S A B} (body : B → A → M S B) l acc s r s' x :
  foldM body l acc s = Ok r s' → x ∈ l →
  ∃ acc1 s1 acc2 s2, body acc1 x s1 = Ok acc2 s2.
Proof.
  revert acc s. induction l as [|y l IH]; intros acc s H Hx.
  - by apply elem_of_nil in Hx.
  - simpl in H. apply bind_inv_Ok in H as (acc1 & s1 & H1 & H2).
    apply elem_of_cons in Hx as [->|Hx]; [by eauto|].
    by eapply IH.
Qed.

Lemma map_attrs_Ok_supported defs w attrs w' k d :
  map_attrs defs w = Ok attrs w' → defs !! k = Some d →
  supported (type_index d) = true.
Proof.
  intros H Hk. unfold map_attrs in H.
  destruct (foldM_Ok_each _ _ _ _ _ _ k H) as (acc1 & s1 & acc2 & s2 & E).
  { apply elem_of_seq. apply lookup_lt_Some in Hk. lia. }
  rewrite map_attr_eq, Hk in E. by destruct (supported _).
Qed.

(** The attributes before an unsupported one are boxed when each slot
    holds a value of the type its spec names; the loop then throws. *)
Lemma map_attrs_Throw defs w k d :
  defs !! k = Some d → supported (type_index d) = false →
  (∀ j dj, (j < k)%nat → defs !! j = Some dj →
     ∃ a, attrs_ (ctx w) !! j = Some a ∧ any_type a = type_index dj) →
  map_attrs defs w = Throw Unimplemented w.
Proof.
  intros Hk Hun Hbefore. unfold map_attrs.
  assert (k < length defs)%nat as Hlt by by eapply lookup_lt_Some.
  replace (length defs) with (k + (length defs - k))%nat by lia.
  rewrite seq_app, foldM_app.
  assert (∀ n acc, (n ≤ k)%nat →
            (∃ acc', foldM (map_attr defs) (seq 0 n) acc w = Ok acc' w) ∨
            foldM (map_attr defs) (seq 0 n) acc w = Throw Unimplemented w)
    as Hpre.
  { induction n as [|n IH]; intros acc Hn.
    - left. by exists acc.
    - rewrite seq_S, foldM_snoc. simpl.
      destruct (IH acc ltac:(lia)) as [[acc' E]|E].
      + rewrite (bind_Ok _ _ _ _ _ E), map_attr_eq.
        destruct (defs !! n) as [dn|] eqn:Hn'.
        2:{ apply lookup_ge_None in Hn'. lia. }
        destruct (supported (type_index dn)); [|by right].
        destruct (Hbefore n dn ltac:(lia) Hn') as (a & -> & Ha).
        rewrite decide_True by done. left. by eexists.
      + right. by apply bind_Throw. }
  destruct (Hpre k [] ltac:(lia)) as [[acc' E]|E].
  - rewrite (bind_Ok _ _ _ _ _ E).
    destruct (length defs - k)%nat as [|n] eqn:Hn; [lia|].
    simpl. apply bind_Throw. rewrite map_attr_eq, Hk, Hun. done.
  - by apply bind_Throw.
Qed.

(** ** Where an error can come from *)

Ltac nt_step :=
  lazymatch goal with
  | |- never_throws _ =>
      first
        [ apply never_throws_ret | apply never_throws_get
        | apply never_throws_must | apply never_throws_fault
        | apply never_throws_modify | apply never_throws_bind
        | apply never_throws_foldM ]
  | |- ∀ _, _ => intro
  end.

Lemma never_throws_map_inputs defs : never_throws (map_inputs defs).
Proof.
  unfold map_inputs. apply never_throws_foldM. intros [ci cvi] i.
  unfold map_input. repeat nt_step. destruct (negb _); repeat nt_step.
Qed.

Lemma never_throws_map_outputs defs : never_throws (map_outputs defs).
Proof.
  unfold map_outputs. apply never_throws_foldM. intros acc i.
  unfold map_output. repeat nt_step.
  destruct (negb _); repeat (repeat nt_step; split_pairs).
Qed.

Lemma map_attrs_throws_Unimplemented defs w e w' :
  map_attrs defs w = Throw e w' → e = Unimplemented.
Proof.
  unfold map_attrs. generalize (@nil any) as acc. generalize 0%nat as n.
  generalize (length defs) as len.
  induction len as [|len IH]; intros n acc H; simpl in H; [done|].
  apply bind_inv_Throw in H as [H|(acc1 & s1 & H1 & H2)].
  - rewrite map_attr_eq in H.
    destruct (defs !! n) as [d|]; [|done].
    destruct (supported _); [|congruence].
    destruct (attrs_ (ctx w) !! n) as [a|]; [|done]. by case_decide.
  - rewrite map_attr_eq in H1.
    destruct (defs !! n) as [d|]; [|done].
    destruct (supported _); [|done].
    destruct (attrs_ (ctx w) !! n) as [a|]; [|done].
    case_decide; [|done]. injection H1 as <- <-. by eapply IH.
Qed.

(** An error out of the size checks and the mappings is either the
    InvalidArgument of the size checks, with the state untouched, or the
    Unimplemented of the attributes mapping, with the state the inputs
    mapping left. *)
Lemma marshal_Throw_inv info w e w' :
  marshal info w = Throw e w' →
  (e = InvalidArgument ∧ ¬ sizes_ok info w ∧ w' = w) ∨
  (e = Unimplemented ∧ sizes_ok info w ∧
   ∃ ins, map_inputs (input_defs_ info) w = Ok ins w' ∧
          map_attrs (attribute_defs_ info) w' = Throw Unimplemented w').
Proof.
  unfold marshal, GetInputDefs, GetOutputDefs, GetAttributeDefs. intros H.
  apply bind_inv_Throw in H as [H|([] & s1 & H1 & H)];
    rewrite check_sizes_eq in *; destruct (decide (sizes_ok info w)); try done.
  { left. by injection H as <- <-. }
  injection H1 as <-. right.
  apply bind_inv_Throw in H as [H|([ci cvi] & s2 & H2 & H)].
  { by apply never_throws_map_inputs in H. }
  apply bind_inv_Throw in H as [H|(attrs & s3 & H3 & H)].
  - pose proof (keeps_Throw _ _ _ _ _ (keeps_eq_map_attrs _) H) as ->.
    pose proof (map_attrs_throws_Unimplemented _ _ _ _ H) as ->. eauto.
  - apply bind_inv_Throw in H as [H|(o & s4 & H4 & H)]; [|done].
    by apply never_throws_map_outputs in H.
Qed.

Lemma marshal_Ok_inv info w m w3 :
  marshal info w = Ok m w3 →
  sizes_ok info w ∧
  ∃ w1 w2,
    map_inputs (input_defs_ info) w = Ok (custom_ins m, custom_vec_ins m) w1 ∧
    map_attrs (attribute_defs_ info) w1 = Ok (custom_attrs m) w2 ∧
    w2 = w1 ∧
    map_outputs (output_defs_ info) w2 = Ok (outs m) w3.
Proof.
  unfold marshal, GetInputDefs, GetOutputDefs, GetAttributeDefs. intros H.
  apply bind_inv_Ok in H as ([] & s1 & H1 & H).
  rewrite check_sizes_eq in H1. destruct (decide (sizes_ok info w)); [|done].
  injection H1 as <-. split; [done|].
  apply bind_inv_Ok in H as ([ci cvi] & s2 & H2 & H).
  apply bind_inv_Ok in H as (attrs & s3 & H3 & H).
  apply bind_inv_Ok in H as (o & s4 & H4 & H).
  injection H as <- <-. simpl.
  pose proof (keeps_Ok _ _ _ _ _ (keeps_eq_map_attrs _) H3) as <-.
  by exists s2, s2.
Qed.

Lemma never_throws_map_back_outputs defs o : never_throws (map_back_outputs defs o).
Proof.
  unfold map_back_outputs. repeat nt_step. destruct acc as [sp vp].
  unfold map_back. repeat nt_step. destruct (negb _); repeat nt_step.
Qed.

Lemma never_throws_delete_outs o : never_throws (delete_outs o).
Proof. unfold delete_outs. repeat nt_step. Qed.

(** An error of [RunKernelFunc] is an error of the size checks or of the
    attributes mapping: nothing after them throws. *)
Lemma RunKernelFunc_Throw_inv env info w e w' :
  RunKernelFunc env info w = Throw e w' → marshal info w = Throw e w'.
Proof.
  unfold RunKernelFunc. intros H.
  apply bind_inv_Throw in H as [H|(m & w3 & Hm & H)]; [done|]. exfalso.
  cbv zeta in H. case_decide.
  - revert H. apply never_throws_bind; [apply never_throws_modify|].
    intros _. apply never_throws_bind;
      auto using never_throws_map_back_outputs, never_throws_delete_outs.
  - destruct (PADDLE_WITH_CUSTOM_DEVICE env); [|done].
    by destruct (negb _).
Qed.

(** C4, as amended.  Let the signature have an attribute spec [d], at
    position [k], whose type index is outside the fixed set.  Then
    [RunKernelFunc] never returns normally, and whatever error it throws,
    the output slots, the tensors they point to and the trace of calls are
    as before the call.  When moreover the call passes the size checks, the
    inputs mapping succeeds and every attribute slot before [k] holds a
    value of the type its spec names, the error is Unimplemented. *)
Theorem RunKernelFunc_unsupported_attribute env info w k d :
  attribute_defs_ info !! k = Some d →
  supported (type_index d) = false →
  (∀ w', RunKernelFunc env info w ≠ Ok tt w') ∧
  (∀ e w', RunKernelFunc env info w = Throw e w' →
     outputs_ (ctx w') = outputs_ (ctx w) ∧ mem w' = mem w ∧
     calls w' = calls w) ∧
  (sizes_ok info w →
   ∀ ins w1,
     map_inputs (input_defs_ info) w = Ok ins w1 →
     (∀ j dj, (j < k)%nat → attribute_defs_ info !! j = Some dj →
        ∃ a, attrs_ (ctx w) !! j = Some a ∧ any_type a = type_index dj) →
     RunKernelFunc env info w = Throw Unimplemented w1).
Proof.
  intros Hk Hun. split; [|split].
  - intros w' H. unfold RunKernelFunc in H.
    apply bind_inv_Ok in H as (m & w3 & Hm & _).
    apply marshal_Ok_inv in Hm as (_ & w1 & w2 & _ & Hattrs & _).
    pose proof (map_attrs_Ok_supported _ _ _ _ _ _ Hattrs Hk). congruence.
  - intros e w' H. apply RunKernelFunc_Throw_inv in H.
    by destruct (keeps_Throw _ _ _ _ _ (keeps_marshal info) H)
      as (? & ? & ? & ? & _).
  - intros Hsz [ci cvi] w1 Hin Hbefore.
    apply RunKernelFunc_marshal_Throw.
    unfold marshal, GetInputDefs, GetOutputDefs, GetAttributeDefs.
    assert (check_sizes info w = Ok tt w) as Hc.
    { rewrite check_sizes_eq. by rewrite decide_True. }
    rewrite (bind_Ok _ _ _ _ _ Hc), (bind_Ok _ _ _ _ _ Hin).
    apply bind_Throw. apply (map_attrs_Throw _ _ k d); try done.
    destruct (keeps_Ok _ _ _ _ _
                (keeps_foldM marshal_frame _ _ _
                   (keeps_map_input (input_defs_ info))) Hin)
      as (_ & _ & _ & _ & -> & _).
    done.
Qed.

(** ** Inputs mapping *)

Lemma InputAt_Ok i w t w' :
  InputAt i w = Ok t w' →
  w' = w ∧ 0 ≤ i ∧
  ∃ a, inputs_ (ctx w) !! Z.to_nat i = Some (Some a) ∧ mem w !! a = Some t.
Proof.
  unfold InputAt, get, must, slot_at, mbind, M_bind, bind.
  case_decide; [|done].
  destruct (inputs_ (ctx w) !! Z.to_nat i) as [[a|]|]; try done. simpl.
  destruct (mem w !! a) as [t'|] eqn:E; [|done].
  intros [= <- <-]. eauto.
Qed.

Lemma keeps_move_body v i :
  keeps marshal_frame
    (t ← InputAt i;
     modify (λ w, set_ctx (clear_input i (ctx w)) w);;
     mret (v ++ [t])).
Proof. repeat keeps_step. apply keeps_clear_input. Qed.

(** Every slot a move ranges over held a tensor and is empty afterwards. *)
Lemma move_consumes (l : list Z) acc w v w' k :
  foldM (λ v i,
           t ← InputAt i;
           modify (λ w, set_ctx (clear_input i (ctx w)) w);;
           mret (v ++ [t])) l acc w = Ok v w' →
  k ∈ l →
  inputs_ (ctx w') !! Z.to_nat k = Some None ∧
  ∃ a, inputs_ (ctx w) !! Z.to_nat k = Some (Some a).
Proof.
  revert acc w. induction l as [|x l IH]; intros acc w H Hk.
  - by apply elem_of_nil in Hk.
  - simpl in H. apply bind_inv_Ok in H as (acc1 & w1 & H1 & H2).
    pose proof (keeps_Ok _ _ _ _ _ (keeps_move_body acc x) H1) as F1.
    pose proof (keeps_Ok _ _ _ _ _
                  (keeps_foldM marshal_frame _ _ _ keeps_move_body) H2) as F2.
    apply bind_inv_Ok in H1 as (t & w0 & Hin & H1).
    apply InputAt_Ok in Hin as (-> & Hx & a & Ha & _).
    injection H1 as <- <-.
    apply elem_of_cons in Hk as [->|Hk].
    + split; [|by eauto].
      apply F2. simpl. apply list_lookup_insert_eq. by eapply lookup_lt_Some.
    + destruct (IH _ _ H2 Hk) as (Hnone & a' & Ha'). split; [done|].
      exists a'. by apply F1.
Qed.

Lemma MoveInputsBetween_consumes a b w v w' k :
  MoveInputsBetween a b w = Ok v w' → a ≤ k < b →
  inputs_ (ctx w') !! Z.to_nat k = Some None ∧
  ∃ x, inputs_ (ctx w) !! Z.to_nat k = Some (Some x).
Proof.
  unfold MoveInputsBetween. intros H Hk. eapply move_consumes; [done|].
  apply elem_of_seqZ. lia.
Qed.

(** After the inputs mapping, the slots of every list-valued input are
    empty, and each held a tensor when the mapping began. *)
Lemma map_inputs_consumes defs n acc w acc' w' i d r k :
  foldM (map_input defs) (seq 0 n) acc w = Ok acc' w' →
  (i < n)%nat → defs !! i = Some d → is_vector d = true →
  input_range_ (ctx w) !! i = Some r → r.1 ≤ k < r.2 →
  inputs_ (ctx w') !! Z.to_nat k = Some None ∧
  ∃ x, inputs_ (ctx w) !! Z.to_nat k = Some (Some x).
Proof.
  intros H Hi Hd Hv Hr Hk. revert acc' w' H Hi.
  induction n as [|n IH]; intros acc' w' H Hi; [lia|].
  rewrite seq_S, foldM_snoc in H. simpl in H.
  apply bind_inv_Ok in H as (accn & wn & Hn & Hstep).
  pose proof (keeps_Ok _ _ _ _ _
                (keeps_foldM marshal_frame _ _ _ (keeps_map_input defs)) Hn)
    as Fn.
  pose proof (keeps_Ok _ _ _ _ _ (keeps_map_input defs accn n) Hstep) as Fs.
  destruct (decide (i = n)) as [->|Hne].
  - destruct Fn as (_ & _ & _ & _ & _ & Hrange & _ & _ & _ & Fback).
    unfold map_input in Hstep. destruct accn as [ci cvi].
    apply bind_inv_Ok in Hstep as (r' & w0 & Hr' & Hstep).
    unfold InputRangeAt, get, mbind, M_bind, bind in Hr'.
    rewrite Hrange, Hr in Hr'. injection Hr' as <- <-.
    rewrite Hd in Hstep. unfold must at 1 in Hstep.
    rewrite (bind_Ok _ _ _ d wn) in Hstep by done.
    rewrite Hv in Hstep. simpl in Hstep.
    apply bind_inv_Ok in Hstep as (v & wa & Hmove & Hstep).
    apply bind_inv_Ok in Hstep as (vin & wb & Hshare & Hstep).
    injection Hstep as <- <-.
    destruct (MoveInputsBetween_consumes _ _ _ _ _ k Hmove Hk)
      as (Hnone & x & Hx).
    split; [|by eauto].
    assert (marshal_frame wa wb) as (_&_&_&_&_&_&_&_& Fab & _).
    { eapply keeps_Ok; [|exact Hshare]. repeat keeps_step. }
    by apply Fab.
  - destruct (IH _ _ Hn ltac:(lia)) as (Hnone & x & Hx).
    split; [|by eauto].
    destruct Fs as (_&_&_&_&_&_&_&_& Fkeep & _). by apply Fkeep.
Qed.

(** C9.  When [RunKernelFunc] throws the Unimplemented error of an
    unsupported attribute type, the inputs mapping has already run: every
    slot in the range of a list-valued input, which held a tensor when the
    call began, is empty in the context the error leaves behind. *)
Theorem RunKernelFunc_Unimplemented_inputs_consumed env info w w' :
  RunKernelFunc env info w = Throw Unimplemented w' →
  ∀ i d r k,
    input_defs_ info !! i = Some d → is_vector d = true →
    input_range_ (ctx w) !! i = Some r → r.1 ≤ k < r.2 →
    inputs_ (ctx w') !! Z.to_nat k = Some None ∧
    ∃ x, inputs_ (ctx w) !! Z.to_nat k = Some (Some x).
Proof.
  intros H i d r k Hd Hv Hr Hk.
  apply RunKernelFunc_Throw_inv, marshal_Throw_inv in H
    as [(? & _)|(_ & _ & ins & Hin & _)]; [done|].
  unfold map_inputs in Hin.
  eapply map_inputs_consumes; try done. by eapply lookup_lt_Some.
Qed.

(** ** Registration *)

Lemma register_kernel_eq env info f :
  register_kernel env info f
  = match kernels_ f !! op_name_ info with
    | None => Throw InvalidArgument f
    | Some family =>
        match family !! GetKernelKey info with
        | Some _ => Throw InvalidArgument f
        | None =>
            Ok tt (set_kernels
                     (<[op_name_ info :=
                          <[GetKernelKey info := custom_kernel env info]>
                            family]> (kernels_ f)) f)
        end
    end.
Proof.
  unfold register_kernel, HasCompatiblePtenKernel, kernels_at, install,
    kernels_at, GetOpName, PADDLE_ENFORCE, get, throw, modify.
  unfold mbind, M_bind, bind, mret, M_ret.
  destruct (kernels_ f !! op_name_ info) as [family|] eqn:Hop; simpl;
    [|done].
  rewrite Hop.
  destruct (family !! GetKernelKey info) as [k|] eqn:Hkey; simpl; [done|].
  by rewrite Hop.
Qed.

Lemma lookup_kernel_install f op key k family op' key' :
  kernels_ f !! op = Some family →
  lookup_kernel
    (set_kernels (<[op := <[key := k]> family]> (kernels_ f)) f) op' key'
  = if decide (op' = op ∧ key' = key) then Some k
    else lookup_kernel f op' key'.
Proof.
  intros Hop. unfold lookup_kernel. simpl.
  destruct (decide (op' = op)) as [->|Hne].
  - rewrite lookup_insert_eq, Hop. simpl.
    destruct (decide (key' = key)) as [->|Hk].
    + rewrite lookup_insert_eq. by rewrite decide_True.
    + rewrite lookup_insert_ne by done. rewrite decide_False; [done|].
      by intros [_ ?].
  - rewrite lookup_insert_ne by done. rewrite decide_False; [done|].
    by intros [? _].
Qed.

Lemma register_kernel_Throw env info f e f' :
  register_kernel env info f = Throw e f' →
  e = InvalidArgument ∧ f' = f ∧
  (¬ has_family f (op_name_ info) ∨
   registered f (op_name_ info) (GetKernelKey info)).
Proof.
  rewrite register_kernel_eq. unfold has_family, registered, lookup_kernel.
  destruct (kernels_ f !! op_name_ info) as [family|]; simpl.
  - destruct (family !! GetKernelKey info) as [k|]; [|done].
    intros [= <- <-]. repeat split; try done. right. by eexists.
  - intros [= <- <-]. repeat split; try done. left. by intros [? ?].
Qed.

Lemma register_kernel_Ok env info f u f' :
  register_kernel env info f = Ok u f' →
  has_family f (op_name_ info) ∧
  ¬ registered f (op_name_ info) (GetKernelKey info) ∧
  factory_log f' = factory_log f ∧
  ∀ op key,
    lookup_kernel f' op key
    = if decide (op = op_name_ info ∧ key = GetKernelKey info)
      then Some (custom_kernel env info)
      else lookup_kernel f op key.
Proof.
  rewrite register_kernel_eq. unfold has_family, registered.
  destruct (kernels_ f !! op_name_ info) as [family|] eqn:Hop; [|done].
  destruct (family !! GetKernelKey info) as [k|] eqn:Hkey; [done|].
  intros [= <- <-]. split; [by eexists|]. split; [|split; [done|]].
  - unfold lookup_kernel. rewrite Hop. simpl. rewrite Hkey. by intros [? ?].
  - intros op key. by apply lookup_kernel_install.
Qed.

Lemma register_kernel_not_Fault env info f :
  register_kernel env info f ≠ Fault.
Proof.
  rewrite register_kernel_eq.
  destruct (kernels_ f !! op_name_ info) as [family|]; [|done].
  by destruct (family !! GetKernelKey info).
Qed.

Lemma RegisterKernelWithMetaInfo_single env info f :
  RegisterKernelWithMetaInfo env [info] f = register_kernel env info f.
Proof.
  unfold RegisterKernelWithMetaInfo. simpl.
  unfold mbind, M_bind, bind, mret, M_ret.
  by destruct (register_kernel env info f) as [[] ?| |].
Qed.

(** C6.  Registering one signature raises an error exactly when the op
    name has no kernel family in the dispatch table or a kernel is already
    registered under the same op name and kernel-key.  The error is
    InvalidArgument and leaves the table as it was, so that in the duplicate
    case the kernel registered before is still the one installed; otherwise
    the call returns with the new closure installed under the op name and
    kernel-key and every other entry unchanged. *)
Theorem RegisterKernelWithMetaInfo_one env info f :
  let op := op_name_ info in
  let key := GetKernelKey info in
  ((∃ e f', RegisterKernelWithMetaInfo env [info] f = Throw e f')
   ↔ ¬ has_family f op ∨ registered f op key) ∧
  (∀ e f', RegisterKernelWithMetaInfo env [info] f = Throw e f' →
     e = InvalidArgument ∧ f' = f) ∧
  (∀ k, lookup_kernel f op key = Some k →
     RegisterKernelWithMetaInfo env [info] f = Throw InvalidArgument f ∧
     lookup_kernel f op key = Some k) ∧
  (has_family f op → ¬ registered f op key →
   ∃ f', RegisterKernelWithMetaInfo env [info] f = Ok tt f' ∧
         lookup_kernel f' op key = Some (custom_kernel env info) ∧
         ∀ op' key', ¬ (op' = op ∧ key' = key) →
                     lookup_kernel f' op' key' = lookup_kernel f op' key').
Proof.
  intros op key. rewrite RegisterKernelWithMetaInfo_single.
  assert (has_family f op → ¬ registered f op key →
          ∃ f', register_kernel env info f = Ok tt f') as Hok.
  { intros [family Hop] Hnew. rewrite register_kernel_eq.
    fold op. rewrite Hop. fold key.
    destruct (family !! key) as [k|] eqn:Hkey; [|by eexists].
    destruct Hnew. exists k. unfold lookup_kernel. by rewrite Hop. }
  repeat split.
  - intros (e & f' & H). by apply register_kernel_Throw in H as (_ & _ & H).
  - intros H.
    destruct (register_kernel env info f) as [[] f'|e f'|] eqn:E.
    + apply register_kernel_Ok in E as (? & ? & _). by destruct H.
    + by eauto.
    + by apply register_kernel_not_Fault in E.
  - by apply register_kernel_Throw in H as (? & _).
  - by apply register_kernel_Throw in H as (_ & ? & _).
  - rewrite register_kernel_eq. unfold lookup_kernel in H.
    fold op. destruct (kernels_ f !! op) as [family|]; [|done].
    simpl in H. fold key. by rewrite H.
  - done.
  - intros Hfam Hnew. destruct (Hok Hfam Hnew) as (f' & E). exists f'.
    split; [done|].
    apply register_kernel_Ok in E as (_ & _ & _ & Hlook). split.
    + rewrite Hlook. by rewrite decide_True.
    + intros op' key' Hne. rewrite Hlook. by rewrite decide_False.
Qed.

(** ** Batches *)

#[global] Instance extends_preorder : PreOrder extends.
Proof.
  split.
  - by intros f.
  - intros f1 f2 f3 [L12 H12] [L23 H23]. split; [congruence|].
    intros op key k H. by apply H23, H12.
Qed.

Lemma register_kernel_extends env info f u f' :
  register_kernel env info f = Ok u f' → extends f f'.
Proof.
  intros H. apply register_kernel_Ok in H as (_ & Hnew & Hlog & Hlook).
  split; [done|]. intros op key k Hk. rewrite Hlook.
  case_decide as Heq; [|done]. destruct Heq as [-> ->].
  destruct Hnew. by exists k.
Qed.

Lemma keeps_extends_register_kernel env info :
  keeps extends (register_kernel env info).
Proof.
  intros f. destruct (register_kernel env info f) as [u f'|e f'|] eqn:E.
  - by eapply register_kernel_extends.
  - by apply register_kernel_Throw in E as (_ & -> & _).
  - done.
Qed.

Lemma keeps_extends_RegisterKernelWithMetaInfo env infos :
  keeps extends (RegisterKernelWithMetaInfo env infos).
Proof.
  apply keeps_foldM; [apply _|]. intros _ info.
  apply keeps_extends_register_kernel.
Qed.

(** A batch that returns has installed each of its signatures. *)
Lemma RegisterKernelWithMetaInfo_Ok env infos f u f' info :
  RegisterKernelWithMetaInfo env infos f = Ok u f' → info ∈ infos →
  lookup_kernel f' (op_name_ info) (GetKernelKey info)
  = Some (custom_kernel env info).
Proof.
  unfold RegisterKernelWithMetaInfo. generalize tt at 1 as acc.
  revert f. induction infos as [|x infos IH]; intros f acc H Hin.
  - by apply elem_of_nil in Hin.
  - simpl in H. apply bind_inv_Ok in H as (acc1 & f1 & H1 & H2).
    apply elem_of_cons in Hin as [->|Hin]; [|by eapply IH].
    destruct acc1.
    pose proof (keeps_Ok _ _ _ _ _
                  (keeps_extends_RegisterKernelWithMetaInfo env infos) H2)
      as [_ Hext].
    apply Hext. apply register_kernel_Ok in H1 as (_ & _ & _ & ->).
    by rewrite decide_True.
Qed.

(** A batch that fails has run its loop up to the failing signature. *)
Lemma RegisterKernelWithMetaInfo_Throw env infos f e f' :
  RegisterKernelWithMetaInfo env infos f = Throw e f' →
  ∃ i bad,
    infos !! i = Some bad ∧
    RegisterKernelWithMetaInfo env (take i infos) f = Ok tt f' ∧
    register_kernel env bad f' = Throw e f'.
Proof.
  unfold RegisterKernelWithMetaInfo. generalize tt at 1 2 as acc.
  revert f. induction infos as [|x infos IH]; intros f acc H; [done|].
  simpl in H. apply bind_inv_Throw in H as [H|(acc1 & f1 & H1 & H2)].
  - pose proof H as H'. apply register_kernel_Throw in H' as (_ & -> & _).
    exists 0%nat, x. simpl. by destruct acc.
  - destruct (IH _ _ H2) as (i & bad & Hi & Hpre & Hbad).
    exists (S i), bad. simpl. split; [done|]. split; [|done].
    by rewrite (bind_Ok _ _ _ _ _ H1).
Qed.

Lemma keeps_extends_RegisterKernelWithMetaInfoMap env groups :
  keeps extends (RegisterKernelWithMetaInfoMap env groups).
Proof.
  apply keeps_foldM; [apply _|]. intros _ pair.
  apply keeps_extends_RegisterKernelWithMetaInfo.
Qed.

(** A map whose registration returns has installed every signature of
    every group. *)
Lemma RegisterKernelWithMetaInfoMap_Ok env groups f u f' g info :
  RegisterKernelWithMetaInfoMap env groups f = Ok u f' →
  g ∈ groups → info ∈ g.2 →
  lookup_kernel f' (op_name_ info) (GetKernelKey info)
  = Some (custom_kernel env info).
Proof.
  unfold RegisterKernelWithMetaInfoMap. generalize tt at 1 as acc.
  revert f. induction groups as [|x groups IH]; intros f acc H Hg Hin.
  - by apply elem_of_nil in Hg.
  - simpl in H. apply bind_inv_Ok in H as ([] & f1 & H1 & H2).
    apply elem_of_cons in Hg as [->|Hg]; [|by eapply IH].
    pose proof (keeps_Ok _ _ _ _ _
                  (keeps_extends_RegisterKernelWithMetaInfoMap env groups) H2)
      as [_ Hext].
    apply Hext. by eapply RegisterKernelWithMetaInfo_Ok.
Qed.

(** C10.  Batch registration is not atomic.  When registering the list
    [infos] throws, some signature [bad] at a position [i] was refused, the
    loop had installed the signatures before it, and in the table the error
    leaves behind each of them is still registered with its closure.  And
    when that list is a group of a map whose earlier groups [before] were
    registered, registering the map throws the same error and every
    signature of the earlier groups stays registered. *)
Theorem registration_not_atomic env infos f e f' :
  RegisterKernelWithMetaInfo env infos f = Throw e f' →
  (∃ i bad,
     infos !! i = Some bad ∧
     RegisterKernelWithMetaInfo env (take i infos) f = Ok tt f' ∧
     register_kernel env bad f' = Throw e f' ∧
     ∀ j info, (j < i)%nat → infos !! j = Some info →
       lookup_kernel f' (op_name_ info) (GetKernelKey info)
       = Some (custom_kernel env info)) ∧
  (∀ before op after f0,
     RegisterKernelWithMetaInfoMap env before f0 = Ok tt f →
     RegisterKernelWithMetaInfoMap env (before ++ (op, infos) :: after) f0
     = Throw e f' ∧
     ∀ g info, g ∈ before → info ∈ g.2 →
       lookup_kernel f' (op_name_ info) (GetKernelKey info)
       = Some (custom_kernel env info)).
Proof.
  intros H. split.
  - destruct (RegisterKernelWithMetaInfo_Throw _ _ _ _ _ H)
      as (i & bad & Hi & Hpre & Hbad).
    exists i, bad. repeat split; try done.
    intros j info Hj Hinfo.
    eapply RegisterKernelWithMetaInfo_Ok; [exact Hpre|].
    apply list_elem_of_lookup. exists j. rewrite lookup_take_lt by done. done.
  - intros before op after f0 Hbefore. split.
    + unfold RegisterKernelWithMetaInfoMap in *.
      rewrite foldM_app, (bind_Ok _ _ _ _ _ Hbefore). simpl.
      by apply bind_Throw.
    + intros g info Hg Hin.
      pose proof (keeps_Throw _ _ _ _ _
                    (keeps_extends_RegisterKernelWithMetaInfo env infos) H)
        as [_ Hext].
      apply Hext. by eapply RegisterKernelWithMetaInfoMap_Ok.
Qed.

(** ** LoadCustomKernelLib *)

(** C7, as amended.  For a library that does not export
    PD_GetOpKernelInfoMap, [LoadCustomKernelLib] returns without an error
    and registers nothing: the dispatch table is unchanged.  On a Linux
    build it logs one warning naming the library; on another platform the
    symbol is not looked up and nothing is logged. *)
Theorem LoadCustomKernelLib_missing_symbol env dso_lib_path dso_handle f :
  dso_handle !! "PD_GetOpKernelInfoMap"%string = None →
  ∃ f',
    LoadCustomKernelLib env dso_lib_path dso_handle f = Ok tt f' ∧
    kernels_ f' = kernels_ f ∧
    factory_log f'
    = if _LINUX env
      then factory_log f ++ [LOG_WARNING_skipped_lib dso_lib_path]
      else factory_log f.
Proof.
  intros H. unfold LoadCustomKernelLib, dlsym. rewrite H.
  destruct (_LINUX env).
  - by eexists.
  - by exists f.
Qed.

(** ** Reading the output slots *)

Lemma OutputRangeAt_eq i w :
  OutputRangeAt i w
  = match output_range_ (ctx w) !! i with
    | Some r => Ok r w
    | None => Fault
    end.
Proof.
  unfold OutputRangeAt, get, must, mbind, M_bind, bind.
  by destruct (output_range_ (ctx w) !! i).
Qed.

Lemma MutableOutputAt_eq i w :
  MutableOutputAt i w
  = match slot_at (outputs_ (ctx w)) i with
    | Some p => Ok p w
    | None => Fault
    end.
Proof.
  unfold MutableOutputAt, get, must, mbind, M_bind, bind.
  by destruct (slot_at (outputs_ (ctx w)) i).
Qed.

Lemma collect_slots_eq (l : list Z) acc w :
  foldM (λ v i, p ← MutableOutputAt i; mret (v ++ [p])) l acc w
  = match mapM (slot_at (outputs_ (ctx w))) l with
    | Some v => Ok (acc ++ v) w
    | None => Fault
    end.
Proof.
  revert acc. induction l as [|i l IH]; intros acc; simpl.
  - by rewrite app_nil_r.
  - rewrite !bind_eq, MutableOutputAt_eq.
    destruct (slot_at (outputs_ (ctx w)) i) as [p|]; [|done]. simpl.
    rewrite IH. destruct (mapM _ l) as [v|]; [|done]. simpl.
    by rewrite <- app_assoc.
Qed.

Lemma MutableOutputBetween_eq a b w :
  MutableOutputBetween a b w
  = match mapM (slot_at (outputs_ (ctx w))) (seqZ a (b - a)) with
    | Some v => Ok v w
    | None => Fault
    end.
Proof. unfold MutableOutputBetween. by rewrite collect_slots_eq. Qed.

Lemma load_eq p w :
  load p w
  = match p with
    | Some a => match mem w !! a with Some v => Ok v w | None => Fault end
    | None => Fault
    end.
Proof.
  unfold load, get, must, mbind, M_bind, bind. destruct p as [a|]; [|done].
  simpl. by destruct (mem w !! a).
Qed.

Lemma store_eq p v w :
  store p v w
  = match p with
    | Some a =>
        match mem w !! a with
        | Some _ => Ok tt (set_mem (<[a := v]> (mem w)) w)
        | None => Fault
        end
    | None => Fault
    end.
Proof.
  unfold store, get, must, modify, mbind, M_bind, bind.
  destruct p as [a|]; [|done]. simpl. by destruct (mem w !! a).
Qed.

Lemma shared_get_eq c w :
  shared_get c w
  = match cells (heap w) !! c with Some v => Ok v w | None => Fault end.
Proof.
  unfold shared_get, get, must, mbind, M_bind, bind.
  by destruct (cells (heap w) !! c).
Qed.

(** A new output handle: a fresh handle bound to a fresh cell that holds
    a copy of the tensor. *)
Lemma new_out_handle_eq p w :
  new_out_handle p w
  = match p with
    | Some x =>
        match mem w !! x with
        | Some v =>
            let t := fresh (dom (objs (heap w))) in
            let c := fresh (dom (cells (heap w))) in
            Ok (t, c)
               (set_heap {| cells := <[c := v]> (cells (heap w));
                            objs := <[t := {| impl := Some c |}]>
                                      (objs (heap w)) |} w)
        | None => Fault
        end
    | None => Fault
    end.
Proof.
  unfold new_out_handle. rewrite !bind_eq.
  unfold new_Tensor at 1. rewrite !bind_eq. simpl.
  rewrite bind_eq, load_eq. simpl.
  destruct p as [x|]; [|done].
  destruct (mem w !! x) as [v|]; [|done].
  unfold make_shared, set_impl. repeat (rewrite bind_eq; simpl).
  rewrite lookup_insert_eq. simpl. by rewrite insert_insert_eq.
Qed.

(** ** Outputs mapping *)

#[global] Instance objs_grow_preorder : PreOrder objs_grow.
Proof.
  split.
  - by intros w t o.
  - intros w1 w2 w3 H12 H23 t o H. by apply H23, H12.
Qed.

Lemma singles_app {A} (f : Binding → A) T1 T2 :
  singles f (T1 ++ T2) = singles f T1 ++ singles f T2.
Proof. unfold singles. by rewrite fmap_app, concat_app. Qed.

Lemma manys_app {A} (f : Binding → A) T1 T2 :
  manys f (T1 ++ T2) = manys f T1 ++ manys f T2.
Proof. unfold manys. by rewrite fmap_app, concat_app. Qed.

Lemma flat_app T1 T2 : flat (T1 ++ T2) = flat T1 ++ flat T2.
Proof. unfold flat. by rewrite fmap_app, concat_app. Qed.

Lemma new_out_handle_Ok p w t c w' :
  new_out_handle p w = Ok (t, c) w' →
  ∃ x, p = Some x ∧ is_Some (mem w !! x) ∧
       bound (heap w') {| b_tensor := x; b_handle := t; b_cell := c |} ∧
       objs_grow w w' ∧ marshal_frame w w'.
Proof.
  intros H.
  pose proof (keeps_Ok _ _ _ _ _ (keeps_new_out_handle p) H) as Hframe.
  rewrite new_out_handle_eq in H.
  destruct p as [x|]; [|done]. destruct (mem w !! x) as [v|] eqn:Hx; [|done].
  injection H as <- <- <-. exists x. split_and!; try done.
  - unfold bound. simpl. by rewrite lookup_insert_eq.
  - intros t o Ht. simpl. rewrite lookup_insert_ne; [done|].
    intros <-. apply (is_fresh (dom (objs (heap w)))).
    apply elem_of_dom. by eexists.
Qed.

(** The handles made for the slots of a list output. *)
Lemma new_out_handles_Ok (ps : list (option addr)) vo0 vp0 w vo vp w' :
  foldM (λ '(custom_vec_out, custom_vec_out_ptr) ctx_tensor,
           '(custom_t, custom_t_ptr) ← new_out_handle ctx_tensor;
           mret (custom_vec_out ++ [custom_t],
                 custom_vec_out_ptr ++ [custom_t_ptr]))
        ps (vo0, vp0) w = Ok (vo, vp) w' →
  ∃ bs,
    ps = Some ∘ b_tensor <$> bs ∧
    vo = vo0 ++ (b_handle <$> bs) ∧ vp = vp0 ++ (b_cell <$> bs) ∧
    Forall (λ b, is_Some (mem w !! b_tensor b) ∧ bound (heap w') b) bs ∧
    objs_grow w w' ∧ marshal_frame w w'.
Proof.
  revert vo0 vp0 w. induction ps as [|p ps IH]; intros vo0 vp0 w H.
  - injection H as <- <- <-. exists []. by rewrite !app_nil_r.
  - simpl in H. apply bind_inv_Ok in H as ([vo1 vp1] & w1 & H1 & H2).
    apply bind_inv_Ok in H1 as ([t c] & w0 & Hnew & H1).
    injection H1 as <- <- <-.
    apply new_out_handle_Ok in Hnew as (x & -> & Hx & Hb & Hg & Hf).
    apply IH in H2 as (bs & -> & -> & -> & Hall & Hg' & Hf').
    exists ({| b_tensor := x; b_handle := t; b_cell := c |} :: bs).
    rewrite <- !app_assoc. split_and!; try done.
    + constructor.
      * split; [done|]. by apply Hg'.
      * eapply Forall_impl; [exact Hall|]. intros b [Hm ?]. split; [|done].
        destruct Hf as (Hmem & _). by rewrite <- Hmem.
    + by etrans.
    + by etrans.
Qed.

(** One iteration of the outputs mapping makes the binding of its output
    and appends its handles and cells to the four vectors. *)
Lemma map_output_Ok defs acc i w acc' w' :
  map_output defs acc i w = Ok acc' w' →
  ∃ e,
    entry_ok (outputs_ (ctx w)) (output_range_ (ctx w)) defs i e ∧
    custom_outs acc' = custom_outs acc ++ singles b_handle [e] ∧
    custom_vec_outs acc' = custom_vec_outs acc ++ manys b_handle [e] ∧
    custom_outs_ptr acc' = custom_outs_ptr acc ++ singles b_cell [e] ∧
    custom_vec_outs_ptr acc' = custom_vec_outs_ptr acc ++ manys b_cell [e] ∧
    Forall (λ b, is_Some (mem w !! b_tensor b) ∧ bound (heap w') b)
      (bindings_of e) ∧
    objs_grow w w' ∧ marshal_frame w w'.
Proof.
  unfold map_output. intros H.
  rewrite bind_eq, OutputRangeAt_eq in H.
  destruct (output_range_ (ctx w) !! i) as [r|] eqn:Hr; [|done].
  rewrite bind_eq in H. destruct (defs !! i) as [d|] eqn:Hd; [|done].
  simpl in H. destruct (is_vector d) eqn:Hv; simpl in H.
  - rewrite bind_eq, MutableOutputBetween_eq in H.
    destruct (mapM _ _) as [ps|] eqn:Hps; [|done].
    apply bind_inv_Ok in H as ([vo vp] & w1 & Hnew & H).
    injection H as <- <-.
    apply new_out_handles_Ok in Hnew as (bs & -> & -> & -> & Hall & Hg & Hf).
    exists (Many bs). unfold singles, manys. simpl.
    rewrite !app_nil_r. split_and!; try done.
    exists d, r. by split_and!.
  - rewrite bind_eq, MutableOutputAt_eq in H.
    destruct (slot_at _ _) as [p|] eqn:Hp; [|done].
    apply bind_inv_Ok in H as ([t c] & w1 & Hnew & H).
    injection H as <- <-.
    apply new_out_handle_Ok in Hnew as (x & -> & Hx & Hb & Hg & Hf).
    exists (Single {| b_tensor := x; b_handle := t; b_cell := c |}).
    unfold singles, manys. simpl. rewrite !app_nil_r.
    split_and!; try done.
    + exists d, r. by split_and!.
    + by repeat constructor.
Qed.

(** The outputs mapping over the first [n] outputs makes their bindings,
    in order. *)
Lemma map_outputs_Ok defs n acc w acc' w' :
  foldM (map_output defs) (seq 0 n) acc w = Ok acc' w' →
  ∃ T,
    length T = n ∧
    (∀ i e, T !! i = Some e →
       entry_ok (outputs_ (ctx w)) (output_range_ (ctx w)) defs i e) ∧
    custom_outs acc' = custom_outs acc ++ singles b_handle T ∧
    custom_vec_outs acc' = custom_vec_outs acc ++ manys b_handle T ∧
    custom_outs_ptr acc' = custom_outs_ptr acc ++ singles b_cell T ∧
    custom_vec_outs_ptr acc' = custom_vec_outs_ptr acc ++ manys b_cell T ∧
    Forall (λ b, is_Some (mem w !! b_tensor b) ∧ bound (heap w') b) (flat T) ∧
    objs_grow w w' ∧ marshal_frame w w'.
Proof.
  revert acc' w'. induction n as [|n IH]; intros acc' w' H.
  - injection H as <- <-. exists []. unfold singles, manys, flat. simpl.
    rewrite !app_nil_r. split_and!; done.
  - rewrite seq_S, foldM_snoc in H. simpl in H.
    apply bind_inv_Ok in H as (accn & wn & Hn & Hstep).
    apply IH in Hn
      as (T & Hlen & Hok & Ho & Hvo & Hp & Hvp & Hall & Hg & Hf).
    apply map_output_Ok in Hstep
      as (e & Hok' & Ho' & Hvo' & Hp' & Hvp' & Hall' & Hg' & Hf').
    exists (T ++ [e]).
    rewrite !singles_app, !manys_app, flat_app, !app_assoc.
    rewrite <- Ho, <- Hvo, <- Hp, <- Hvp.
    pose proof Hf as (Hmem & _ & _ & Houts & _ & _ & Hranges & _).
    split_and!; try done.
    + rewrite length_app. simpl. lia.
    + intros i e' Hi. apply lookup_app_Some in Hi as [Hi|[Hge Hi]].
      * by apply Hok.
      * apply list_lookup_singleton_Some in Hi as [Hi <-].
        replace i with n by lia. by rewrite <- Houts, <- Hranges.
    + apply Forall_app. split.
      * eapply Forall_impl; [exact Hall|]. intros b [? Hb]. split; [done|].
        by apply Hg'.
      * unfold flat. simpl. rewrite app_nil_r.
        eapply Forall_impl; [exact Hall'|]. intros b [Hb ?]. split; [|done].
        by rewrite <- Hmem.
    + by etrans.
    + by etrans.
Qed.

(** ** Write-back *)

Lemma written_nil s : written s [] = s.
Proof. by destruct s. Qed.

Lemma written_cons s b bs : written s (b :: bs) = written (written s [b]) bs.
Proof. reflexivity. Qed.

Lemma written_app s bs1 bs2 :
  written s (bs1 ++ bs2) = written (written s bs1) bs2.
Proof. unfold written. simpl. by rewrite foldl_app. Qed.

Lemma assign_is_Some cs m b x :
  is_Some (m !! x) → is_Some (assign cs m b !! x).
Proof.
  intros H. unfold assign. destruct (cs !! b_cell b); [|done].
  apply lookup_insert_is_Some'. by right.
Qed.

Lemma ready_written bs s bs' : ready bs s → ready bs (written s bs').
Proof.
  revert s. induction bs' as [|b bs' IH]; intros s H.
  - by rewrite written_nil.
  - rewrite written_cons. apply IH.
    eapply Forall_impl; [exact H|]. intros b' [? ?]. split; [|done].
    simpl. by apply assign_is_Some.
Qed.

(** The assignment of one slot: [*x = *c]. *)
Lemma store_binding b s :
  ready [b] s →
  (v ← shared_get (b_cell b); store (Some (b_tensor b)) v) s
  = Ok tt (written s [b]).
Proof.
  intros H. apply Forall_singleton in H as [[v0 Hx] [v Hc]].
  rewrite bind_eq, shared_get_eq, Hc, store_eq, Hx.
  unfold written, assign. simpl. by rewrite Hc.
Qed.

Lemma pop_back_snoc {A} (l : list A) x : pop_back (l ++ [x]) = l.
Proof.
  unfold pop_back. rewrite length_app. simpl.
  apply take_app_length'. lia.
Qed.

Lemma back_snoc {A} (l : list A) x (s : World) : back (l ++ [x]) s = Ok x s.
Proof. unfold back. by rewrite last_snoc. Qed.

(** The inner loop of the write-back assigns the slots of a list output
    from the last to the first and uses up the pointers of the output. *)
Lemma map_back_vec_prefix bs pre k s :
  ready bs s → (k ≤ length bs)%nat →
  foldM (map_back_slot (Some ∘ b_tensor <$> bs)) (reverse (seq 0 k))
        (pre ++ (b_cell <$> take k bs)) s
  = Ok pre (written s (reverse (take k bs))).
Proof.
  revert s. induction k as [|k IH]; intros s Hready Hk.
  - simpl. by rewrite app_nil_r, written_nil.
  - destruct (lookup_lt_is_Some_2 bs k ltac:(lia)) as [b Hb].
    rewrite seq_S, reverse_snoc, (take_S_r _ _ _ Hb), fmap_app, app_assoc.
    rewrite reverse_snoc, written_cons. simpl.
    rewrite bind_eq. unfold map_back_slot at 1.
    rewrite bind_eq, list_lookup_fmap, Hb. simpl.
    rewrite bind_eq, back_snoc.
    assert (ready [b] s) as Hb'.
    { apply Forall_singleton. eapply Forall_lookup_1 in Hready; eauto. }
    pose proof (store_binding b s Hb') as Hst. rewrite bind_eq in Hst.
    rewrite bind_eq.
    destruct (shared_get (b_cell b) s) as [v s0| |] eqn:Hget; try done.
    rewrite bind_eq, Hst. simpl. rewrite pop_back_snoc.
    apply IH; [|lia]. by apply ready_written.
Qed.

Lemma map_back_vec_Ok bs s :
  ready bs s →
  map_back_vec (Some ∘ b_tensor <$> bs) (b_cell <$> bs) s
  = Ok [] (written s (reverse bs)).
Proof.
  intros H. unfold map_back_vec. rewrite length_fmap.
  pose proof (map_back_vec_prefix bs [] (length bs) s H ltac:(lia)) as E.
  by rewrite firstn_all in E.
Qed.

Lemma singles_Single {A} (f : Binding → A) b : singles f [Single b] = [f b].
Proof. reflexivity. Qed.

Lemma singles_Many {A} (f : Binding → A) bs : singles f [Many bs] = [].
Proof. reflexivity. Qed.

Lemma manys_Single {A} (f : Binding → A) b : manys f [Single b] = [].
Proof. reflexivity. Qed.

Lemma manys_Many {A} (f : Binding → A) bs : manys f [Many bs] = [f <$> bs].
Proof. reflexivity. Qed.

Lemma flat_one e : flat [e] = bindings_of e.
Proof. unfold flat. simpl. by rewrite app_nil_r. Qed.

Lemma foldM_cons {S A B} (body : B → A → M S B) x l acc s :
  foldM body (x :: l) acc s = (body acc x ≫= foldM body l) s.
Proof. reflexivity. Qed.

(** One iteration of the write-back, for a single and for a list output. *)
Lemma map_back_single defs sp vp i s d r b :
  defs !! i = Some d → output_range_ (ctx s) !! i = Some r →
  is_vector d = false →
  slot_at (outputs_ (ctx s)) r.1 = Some (Some (b_tensor b)) →
  ready [b] s →
  map_back defs (sp ++ [b_cell b], vp) i s = Ok (sp, vp) (written s [b]).
Proof.
  intros Hd Hr Hv He Hre. unfold map_back.
  rewrite bind_eq, OutputRangeAt_eq, Hr, bind_eq, Hd. simpl. rewrite Hv.
  simpl. rewrite bind_eq, MutableOutputAt_eq, He, bind_eq, back_snoc.
  pose proof (store_binding b s Hre) as Hst. rewrite bind_eq in Hst.
  rewrite bind_eq.
  destruct (shared_get (b_cell b) s) as [v s0| |] eqn:Hget; try done.
  rewrite bind_eq, Hst. simpl. by rewrite pop_back_snoc.
Qed.

Lemma map_back_many defs sp vp i s d r bs :
  defs !! i = Some d → output_range_ (ctx s) !! i = Some r →
  is_vector d = true →
  mapM (slot_at (outputs_ (ctx s))) (seqZ r.1 (r.2 - r.1))
  = Some (Some ∘ b_tensor <$> bs) →
  ready bs s →
  map_back defs (sp, vp ++ [b_cell <$> bs]) i s
  = Ok (sp, vp) (written s (reverse bs)).
Proof.
  intros Hd Hr Hv He Hre. unfold map_back.
  rewrite bind_eq, OutputRangeAt_eq, Hr, bind_eq, Hd. simpl. rewrite Hv.
  simpl. rewrite bind_eq, MutableOutputBetween_eq, He, bind_eq, back_snoc.
  rewrite bind_eq, (map_back_vec_Ok bs s Hre). simpl.
  by rewrite pop_back_snoc.
Qed.

(** The write-back loop, run over the outputs that the bindings [T]
    describe, assigns their slots from the last binding to the first and
    uses up exactly the retained pointers that were appended for them. *)
Lemma map_back_Ok defs T sp vp s :
  (∀ i e, T !! i = Some e →
     entry_ok (outputs_ (ctx s)) (output_range_ (ctx s)) defs i e) →
  ready (flat T) s →
  foldM (map_back defs) (reverse (seq 0 (length T)))
        (sp ++ singles b_cell T, vp ++ manys b_cell T) s
  = Ok (sp, vp) (written s (reverse (flat T))).
Proof.
  revert s. induction T as [|e T IH] using rev_ind; intros s Hok Hready.
  - unfold singles, manys, flat. simpl. by rewrite !app_nil_r, written_nil.
  - rewrite length_app. simpl. rewrite Nat.add_1_r, seq_S, reverse_snoc.
    rewrite foldM_cons, bind_eq.
    rewrite singles_app, manys_app, flat_app, reverse_app, !app_assoc.
    rewrite flat_app in Hready. apply Forall_app in Hready as [Hr0 Hre].
    rewrite flat_one in *.
    destruct (Hok (length T) e) as (d & r & Hd & Hr & He).
    { by rewrite lookup_app_r, Nat.sub_diag by lia. }
    assert (∀ i e0, T !! i = Some e0 →
              entry_ok (outputs_ (ctx s)) (output_range_ (ctx s)) defs i e0)
      as Hok0.
    { intros i e0 Hi. apply Hok. by apply lookup_app_l_Some. }
    rewrite written_app.
    destruct e as [b|bs]; destruct He as [Hv He].
    + rewrite singles_Single, manys_Single, app_nil_r.
      rewrite (map_back_single _ _ _ _ _ d r b) by done.
      apply IH; [done|]. by apply ready_written.
    + rewrite singles_Many, manys_Many, app_nil_r.
      rewrite (map_back_many _ _ _ _ _ d r bs) by done.
      apply IH; [done|]. by apply ready_written.
Qed.

(** The forward loops: the same assignments from the first binding to the
    last, the pointers taken from the front. *)
Lemma map_forward_vec_prefix bs post k s :
  ready bs s → (k ≤ length bs)%nat →
  foldM (map_forward_slot (Some ∘ b_tensor <$> bs)) (seq 0 k)
        ((b_cell <$> bs) ++ post) s
  = Ok (drop k (b_cell <$> bs) ++ post) (written s (take k bs)).
Proof.
  intros Hready. induction k as [|k IH]; intros Hk.
  - simpl. by rewrite written_nil.
  - destruct (lookup_lt_is_Some_2 bs k ltac:(lia)) as [b Hb].
    rewrite seq_S, foldM_snoc, bind_eq, IH by lia. simpl.
    unfold map_forward_slot.
    rewrite bind_eq, list_lookup_fmap, Hb. simpl.
    rewrite (drop_S _ (b_cell b) k) by by rewrite list_lookup_fmap, Hb.
    simpl. rewrite bind_eq. simpl.
    assert (ready [b] (written s (take k bs))) as Hb'.
    { apply ready_written, Forall_singleton.
      eapply Forall_lookup_1 in Hready; eauto. }
    pose proof (store_binding b _ Hb') as Hst. rewrite bind_eq in Hst.
    rewrite bind_eq.
    destruct (shared_get (b_cell b) _) as [v s0| |] eqn:Hget; try done.
    rewrite bind_eq, Hst. simpl.
    by rewrite (take_S_r _ _ _ Hb), written_app.
Qed.

Lemma map_forward_vec_Ok bs s :
  ready bs s →
  map_forward_vec (Some ∘ b_tensor <$> bs) (b_cell <$> bs) s
  = Ok [] (written s bs).
Proof.
  intros H. unfold map_forward_vec. rewrite length_fmap.
  pose proof (map_forward_vec_prefix bs [] (length bs) s H ltac:(lia)) as E.
  rewrite app_nil_r in E. rewrite E.
  rewrite firstn_all, drop_ge; [done|]. by rewrite length_fmap.
Qed.

Lemma map_forward_single defs sp vp i s d r b :
  defs !! i = Some d → output_range_ (ctx s) !! i = Some r →
  is_vector d = false →
  slot_at (outputs_ (ctx s)) r.1 = Some (Some (b_tensor b)) →
  ready [b] s →
  map_forward defs (b_cell b :: sp, vp) i s = Ok (sp, vp) (written s [b]).
Proof.
  intros Hd Hr Hv He Hre. unfold map_forward.
  rewrite bind_eq, OutputRangeAt_eq, Hr, bind_eq, Hd. simpl. rewrite Hv.
  simpl. rewrite bind_eq, MutableOutputAt_eq, He, bind_eq. simpl.
  pose proof (store_binding b s Hre) as Hst. rewrite bind_eq in Hst.
  rewrite bind_eq.
  destruct (shared_get (b_cell b) s) as [v s0| |] eqn:Hget; try done.
  by rewrite bind_eq, Hst.
Qed.

Lemma map_forward_many defs sp vp i s d r bs :
  defs !! i = Some d → output_range_ (ctx s) !! i = Some r →
  is_vector d = true →
  mapM (slot_at (outputs_ (ctx s))) (seqZ r.1 (r.2 - r.1))
  = Some (Some ∘ b_tensor <$> bs) →
  ready bs s →
  map_forward defs (sp, (b_cell <$> bs) :: vp) i s
  = Ok (sp, vp) (written s bs).
Proof.
  intros Hd Hr Hv He Hre. unfold map_forward.
  rewrite bind_eq, OutputRangeAt_eq, Hr, bind_eq, Hd. simpl. rewrite Hv.
  simpl. rewrite bind_eq, MutableOutputBetween_eq, He, bind_eq. simpl.
  by rewrite bind_eq, (map_forward_vec_Ok bs s Hre).
Qed.

Lemma map_forward_Ok defs T sp vp s :
  (∀ i e, T !! i = Some e →
     entry_ok (outputs_ (ctx s)) (output_range_ (ctx s)) defs i e) →
  ready (flat T) s →
  foldM (map_forward defs) (seq 0 (length T))
        (singles b_cell T ++ sp, manys b_cell T ++ vp) s
  = Ok (sp, vp) (written s (flat T)).
Proof.
  revert sp vp. induction T as [|e T IH] using rev_ind;
    intros sp vp Hok Hready.
  - unfold singles, manys, flat. simpl. by rewrite written_nil.
  - rewrite length_app. simpl. rewrite Nat.add_1_r, seq_S, foldM_snoc.
    rewrite singles_app, manys_app, flat_app, <- !app_assoc.
    rewrite flat_app in Hready. apply Forall_app in Hready as [Hr0 Hre].
    rewrite flat_one in *.
    destruct (Hok (length T) e) as (d & r & Hd & Hr & He).
    { by rewrite lookup_app_r, Nat.sub_diag by lia. }
    rewrite bind_eq, IH; [|intros i e0 Hi; by apply Hok, lookup_app_l_Some
                          |done].
    assert (ready (bindings_of e) (written s (flat T))) as Hre'.
    { by apply ready_written. }
    rewrite written_app.
    destruct e as [b|bs]; destruct He as [Hv He].
    + rewrite singles_Single, manys_Single. cbn [app].
      by rewrite (map_forward_single _ _ _ _ _ d r b).
    + rewrite singles_Many, manys_Many. cbn [app].
      by rewrite (map_forward_many _ _ _ _ _ d r bs).
Qed.

(** ** Assignments to distinct tensors *)

Lemma foldl_assign_other cs m bs x :
  x ∉ b_tensor <$> bs → foldl (assign cs) m bs !! x = m !! x.
Proof.
  revert m. induction bs as [|b bs IH]; intros m Hx; [done|].
  rewrite fmap_cons in Hx. apply not_elem_of_cons in Hx as [Hne Hx].
  simpl. rewrite IH by done. unfold assign.
  destruct (cs !! b_cell b); [|done]. by rewrite lookup_insert_ne.
Qed.

Lemma foldl_assign_lookup cs m bs b :
  NoDup (b_tensor <$> bs) → b ∈ bs → is_Some (cs !! b_cell b) →
  foldl (assign cs) m bs !! b_tensor b = cs !! b_cell b.
Proof.
  revert m. induction bs as [|b0 bs IH]; intros m Hnd Hb [v Hv].
  - by apply elem_of_nil in Hb.
  - rewrite fmap_cons in Hnd. apply NoDup_cons in Hnd as [Hfresh Hnd].
    simpl. apply elem_of_cons in Hb as [->|Hb].
    + rewrite foldl_assign_other by done. unfold assign. rewrite Hv.
      by rewrite lookup_insert_eq.
    + apply IH; [done..|by eexists].
Qed.

(** When the tensors of the bindings are pairwise distinct, the order of
    the assignments does not matter. *)
Lemma written_reverse s bs :
  NoDup (b_tensor <$> bs) → ready bs s →
  written s (reverse bs) = written s bs.
Proof.
  intros Hnd Hready. unfold written. f_equal. apply map_eq. intros x.
  destruct (decide (x ∈ b_tensor <$> bs)) as [Hin|Hout].
  - apply list_elem_of_fmap in Hin as (b & -> & Hb).
    assert (is_Some (cells (heap s) !! b_cell b)) as Hc.
    { unfold ready in Hready. rewrite Forall_forall in Hready.
      by apply Hready. }
    rewrite (foldl_assign_lookup _ _ bs) by done.
    apply foldl_assign_lookup; [|by apply elem_of_reverse|done].
    by rewrite fmap_reverse, reverse_Permutation.
  - rewrite !foldl_assign_other; try done.
    rewrite fmap_reverse. by rewrite elem_of_reverse.
Qed.

(** ** Positions of the outputs in the vectors *)

Lemma ranks_of_bindings {A} (f : Binding → A) defs T i :
  (∀ j e, T !! j = Some e →
     ∃ d, defs !! j = Some d ∧ is_vector d = is_many e) →
  (i ≤ length T)%nat →
  scalar_rank defs i = length (singles f (take i T)) ∧
  vector_rank defs i = length (manys f (take i T)).
Proof.
  intros Hkind. unfold scalar_rank, vector_rank.
  induction i as [|i IH]; intros Hi; [done|].
  destruct (lookup_lt_is_Some_2 T i ltac:(lia)) as [e He].
  destruct (Hkind i e He) as (d & Hd & Hv).
  destruct (IH ltac:(lia)) as [IHs IHv].
  rewrite (take_S_r _ _ _ Hd), (take_S_r _ _ _ He), !filter_app.
  rewrite singles_app, manys_app, !length_app, <- IHs, <- IHv.
  destruct e as [b|bs]; simpl in Hv.
  - rewrite filter_cons_True, filter_cons_False by (rewrite Hv; done).
    done.
  - rewrite filter_cons_False, filter_cons_True by (rewrite Hv; done).
    done.
Qed.

Lemma singles_lookup {A} (f : Binding → A) defs T i b :
  (∀ j e, T !! j = Some e →
     ∃ d, defs !! j = Some d ∧ is_vector d = is_many e) →
  T !! i = Some (Single b) →
  singles f T !! scalar_rank defs i = Some (f b).
Proof.
  intros Hkind Hi.
  destruct (ranks_of_bindings f defs T i Hkind) as [-> _].
  { apply lookup_lt_Some in Hi. lia. }
  rewrite <- (take_drop_middle T i (Single b) Hi) at 2.
  rewrite singles_app. by rewrite lookup_app_r, Nat.sub_diag by lia.
Qed.

Lemma manys_lookup {A} (f : Binding → A) defs T i bs :
  (∀ j e, T !! j = Some e →
     ∃ d, defs !! j = Some d ∧ is_vector d = is_many e) →
  T !! i = Some (Many bs) →
  manys f T !! vector_rank defs i = Some (f <$> bs).
Proof.
  intros Hkind Hi.
  destruct (ranks_of_bindings f defs T i Hkind) as [_ ->].
  { apply lookup_lt_Some in Hi. lia. }
  rewrite <- (take_drop_middle T i (Many bs) Hi) at 2.
  rewrite manys_app. by rewrite lookup_app_r, Nat.sub_diag by lia.
Qed.

Lemma entry_ok_kind outputs ranges defs i e :
  entry_ok outputs ranges defs i e →
  ∃ d, defs !! i = Some d ∧ is_vector d = is_many e.
Proof.
  intros (d & r & Hd & _ & He). exists d. split; [done|].
  by destruct e; destruct He.
Qed.

Lemma mapM_id_Some {A} (l : list A) : mapM id (Some <$> l) = Some l.
Proof. apply mapM_Some. induction l; by constructor. Qed.

(** The tensors an output designates are the tensors of its binding. *)
Lemma entry_ok_tensors c defs i e :
  entry_ok (outputs_ c) (output_range_ c) defs i e →
  output_tensors c defs i = Some (b_tensor <$> bindings_of e).
Proof.
  intros (d & r & Hd & Hr & He). unfold output_tensors, output_slots.
  rewrite Hr, Hd. simpl. destruct e as [b|bs]; destruct He as [-> He]; simpl.
  - by rewrite He.
  - rewrite He. simpl. rewrite list_fmap_compose. apply mapM_id_Some.
Qed.

(** ** Deleting the handles *)

Lemma delete_list_Ok (l : list addr) s :
  ∃ s', foldM (λ _ h, delete_Tensor h) l tt s = Ok tt s' ∧
        marshal_frame s s'.
Proof.
  revert s. induction l as [|h l IH]; intros s.
  - by exists s.
  - rewrite foldM_cons, bind_eq. simpl.
    destruct (IH (set_heap {| cells := cells (heap s);
                              objs := delete h (objs (heap s)) |} s))
      as (s' & -> & Hf).
    exists s'. split; [done|]. etrans; [|exact Hf]. apply frame_set_heap.
Qed.

Lemma delete_outs_Ok o s :
  ∃ s', delete_outs o s = Ok tt s' ∧ marshal_frame s s'.
Proof.
  unfold delete_outs. rewrite bind_eq.
  destruct (delete_list_Ok (custom_outs o) s) as (s1 & -> & Hf1).
  assert (∀ ll s, ∃ s',
            foldM (λ _ hs, foldM (λ _ h, delete_Tensor h) hs tt) ll tt s
            = Ok tt s' ∧ marshal_frame s s') as Hll.
  { induction ll as [|hs ll IH]; intros s0.
    - by exists s0.
    - rewrite foldM_cons, bind_eq.
      destruct (delete_list_Ok hs s0) as (s2 & -> & Hf2).
      destruct (IH s2) as (s3 & -> & Hf3). exists s3. split; [done|].
      by etrans. }
  destruct (Hll (custom_vec_outs o) s1) as (s2 & -> & Hf2).
  exists s2. split; [done|]. by etrans.
Qed.

(** ** The round trip of the outputs *)

Lemma flat_cells_cover T b :
  b ∈ flat T →
  b_cell b ∈ singles b_cell T ∨ b_cell b ∈ concat (manys b_cell T).
Proof.
  induction T as [|e T IH] using rev_ind; intros Hb.
  - by apply elem_of_nil in Hb.
  - rewrite flat_app, flat_one in Hb.
    rewrite singles_app, manys_app, concat_app, !elem_of_app.
    apply elem_of_app in Hb as [Hb|Hb]; [destruct (IH Hb); auto|].
    destruct e as [b0|bs]; simpl in Hb.
    + apply list_elem_of_singleton in Hb as ->.
      left. right. rewrite singles_Single. by apply list_elem_of_singleton.
    + right. right. rewrite manys_Many. simpl. rewrite app_nil_r.
      by apply list_elem_of_fmap_2.
Qed.

Lemma fmap_flat {A} (f : Binding → A) T :
  f <$> flat T = concat ((λ e, f <$> bindings_of e) <$> T).
Proof.
  induction T as [|e T IH]; [done|].
  change (e :: T) with ([e] ++ T).
  by rewrite flat_app, flat_one, !fmap_app, IH.
Qed.

(** The tensors of all the outputs are the tensors of the bindings. *)
Lemma all_output_tensors_bindings c defs T :
  length T = length defs →
  (∀ i e, T !! i = Some e →
     entry_ok (outputs_ c) (output_range_ c) defs i e) →
  all_output_tensors c defs = Some (b_tensor <$> flat T).
Proof.
  intros Hlen Hok. unfold all_output_tensors.
  assert (mapM (output_tensors c defs) (seq 0 (length defs))
          = Some ((λ e, b_tensor <$> bindings_of e) <$> T)) as ->.
  { apply mapM_Some, Forall2_same_length_lookup_2.
    - by rewrite length_seq, length_fmap.
    - intros i j xs Hi Hxs. apply lookup_seq in Hi as [-> _]. simpl.
      rewrite list_lookup_fmap in Hxs.
      destruct (T !! i) as [e|] eqn:He; [|done]. injection Hxs as <-.
      by apply entry_ok_tensors, Hok. }
  simpl. by rewrite fmap_flat.
Qed.

Lemma Forall2_fmap_same {A B C} (f : A → B) (g : A → C) (P : B → C → Prop)
    (l : list A) :
  Forall (λ a, P (f a) (g a)) l → Forall2 P (f <$> l) (g <$> l).
Proof. induction 1; by constructor. Qed.

Lemma bindings_in_flat T i e b : T !! i = Some e → b ∈ bindings_of e → b ∈ flat T.
Proof.
  intros Hi Hb. rewrite <- (take_drop_middle T i e Hi).
  change (e :: drop (S i) T) with ([e] ++ drop (S i) T).
  rewrite !flat_app, flat_one, !elem_of_app. right. by left.
Qed.

(** C1, as amended.  For a signature with the CPU backend, a call that
    passes the size checks and the three mappings, whose declared outputs
    designate pairwise distinct tensors of the runtime, and a user function
    under which the cells the bridge retains stay allocated:
    [RunKernelFunc] returns, having called the user function once with the
    handles it made; for every output [i], single or list-valued, at any
    position, the handles given to the plugin for output [i] were bound,
    when the user function was called, to the cells retained for output
    [i], and each tensor that output [i] designates holds afterwards exactly
    what the user function left in the corresponding cell; every other
    tensor of the runtime is as before; and the write-back in forward order
    gives the same state as the write-back of the code. *)
Theorem RunKernelFunc_outputs_round_trip env info w m w3 :
  backend_ info = Backend_CPU env →
  marshal info w = Ok m w3 →
  outputs_independent (ctx w) (output_defs_ info) →
  retained_alive (outs m) (heap_after_call info m w3) →
  ∃ w',
    RunKernelFunc env info w = Ok tt w' ∧
    calls w' = calls w ++ [invocation_of m] ∧
    (∀ i, (i < length (output_defs_ info))%nat →
       ∃ xs ts cs,
         output_tensors (ctx w) (output_defs_ info) i = Some xs ∧
         output_handles (output_defs_ info) (outs m) i = Some ts ∧
         output_cells (output_defs_ info) (outs m) i = Some cs ∧
         Forall2 (λ t c, objs (heap w3) !! t = Some {| impl := Some c |})
           ts cs ∧
         Forall2 (λ x c,
                    mem w' !! x = cells (heap_after_call info m w3) !! c)
           xs cs) ∧
    (∀ xs x, all_output_tensors (ctx w) (output_defs_ info) = Some xs →
             x ∉ xs → mem w' !! x = mem w !! x) ∧
    map_forward_outputs (output_defs_ info) (outs m) (after_call info m w3)
    = map_back_outputs (output_defs_ info) (outs m) (after_call info m w3).
Proof.
  intros Hcpu Hm Hind Halive.
  pose proof (keeps_Ok _ _ _ _ _ (keeps_marshal info) Hm) as Fw3.
  destruct (marshal_Ok_inv _ _ _ _ Hm)
    as (_ & w1 & w2 & Hin & _ & -> & Hout).
  pose proof (keeps_Ok _ _ _ _ _
                (keeps_foldM marshal_frame _ _ _
                   (keeps_map_input (input_defs_ info))) Hin) as Fw1.
  set (defs := output_defs_ info) in *.
  unfold map_outputs in Hout.
  apply map_outputs_Ok in Hout
    as (T & Hlen & Hok & Ho & Hvo & Hp & Hvp & Hall & _ & F13).
  simpl in Ho, Hvo, Hp, Hvp.
  destruct Fw1 as (Hmem1 & _ & _ & Houts1 & _ & _ & Hranges1 & _).
  destruct F13 as (Hmem3 & _ & _ & Houts3 & _ & _ & Hranges3 & _).
  destruct Fw3 as (_ & _ & Hcalls3 & _).
  set (s4 := after_call info m w3).
  set (h' := heap_after_call info m w3) in *.
  assert (∀ i e, T !! i = Some e →
            entry_ok (outputs_ (ctx s4)) (output_range_ (ctx s4)) defs i e)
    as Hok4.
  { intros i e Hi. simpl. rewrite Houts3, Hranges3. by apply Hok. }
  assert (∀ i e, T !! i = Some e →
            entry_ok (outputs_ (ctx w)) (output_range_ (ctx w)) defs i e)
    as Hok0.
  { intros i e Hi. rewrite <- Houts1, <- Hranges1. by apply Hok. }
  assert (ready (flat T) s4) as Hready.
  { apply Forall_forall. intros b Hb. split.
    - simpl. rewrite Hmem3. rewrite Forall_forall in Hall.
      by apply Hall.
    - simpl. unfold retained_alive in Halive.
      rewrite Forall_forall in Halive. apply Halive.
      rewrite Hp, Hvp. by apply elem_of_app, flat_cells_cover. }
  assert (NoDup (b_tensor <$> flat T)) as Hnd.
  { unfold outputs_independent in Hind.
    by rewrite (all_output_tensors_bindings _ _ T) in Hind. }
  assert (map_back_outputs defs (outs m) s4
          = Ok tt (written s4 (reverse (flat T)))) as Hback.
  { unfold map_back_outputs. rewrite bind_eq, Hp, Hvp, <- Hlen.
    pose proof (map_back_Ok defs T [] [] s4 Hok4 Hready) as E.
    rewrite !app_nil_l in E. by rewrite E. }
  assert (map_forward_outputs defs (outs m) s4 = Ok tt (written s4 (flat T)))
    as Hfwd.
  { unfold map_forward_outputs. rewrite bind_eq, Hp, Hvp, <- Hlen.
    pose proof (map_forward_Ok defs T [] [] s4 Hok4 Hready) as E.
    rewrite !app_nil_r in E. by rewrite E. }
  destruct (delete_outs_Ok (outs m) (written s4 (reverse (flat T))))
    as (w' & Hdel & (Hmem' & _ & Hcalls' & _)).
  exists w'. split_and!.
  - unfold RunKernelFunc. rewrite (bind_Ok _ _ _ _ _ Hm).
    unfold GetBackend, GetOutputDefs, GetKernelFn. cbv zeta.
    rewrite decide_True by done.
    rewrite bind_eq. unfold call_user_fn, modify. fold defs.
    change (add_call _ _) with s4. by rewrite bind_eq, Hback.
  - rewrite Hcalls'. simpl. by rewrite Hcalls3.
  - intros i Hi.
    destruct (lookup_lt_is_Some_2 T i ltac:(lia)) as [e He].
    assert (∀ j e0, T !! j = Some e0 →
              ∃ d, defs !! j = Some d ∧ is_vector d = is_many e0) as Hkind.
    { intros j e0 Hj. by eapply entry_ok_kind, Hok. }
    destruct (Hkind i e He) as (d & Hd & Hv).
    exists (b_tensor <$> bindings_of e), (b_handle <$> bindings_of e),
      (b_cell <$> bindings_of e).
    split_and!.
    + by apply entry_ok_tensors, Hok0.
    + unfold output_handles. rewrite Hd. simpl. rewrite Hv, Ho, Hvo.
      destruct e as [b|bs]; simpl.
      * by rewrite (singles_lookup b_handle defs T i b).
      * by rewrite (manys_lookup b_handle defs T i bs).
    + unfold output_cells. rewrite Hd. simpl. rewrite Hv, Hp, Hvp.
      destruct e as [b|bs]; simpl.
      * by rewrite (singles_lookup b_cell defs T i b).
      * by rewrite (manys_lookup b_cell defs T i bs).
    + apply Forall2_fmap_same, Forall_forall. intros b Hb.
      rewrite Forall_forall in Hall.
      by apply (Hall b (bindings_in_flat T i e b He Hb)).
    + apply Forall2_fmap_same, Forall_forall. intros b Hb.
      pose proof (bindings_in_flat T i e b He Hb) as Hflat.
      rewrite Hmem'. simpl.
      apply foldl_assign_lookup.
      * by rewrite fmap_reverse, reverse_Permutation.
      * by apply elem_of_reverse.
      * unfold ready in Hready. rewrite Forall_forall in Hready.
        by apply (Hready b Hflat).
  - intros xs x Hxs Hx.
    rewrite (all_output_tensors_bindings _ _ T) in Hxs by done.
    injection Hxs as <-.
    rewrite Hmem'. simpl. rewrite foldl_assign_other.
    + by rewrite Hmem3, Hmem1.
    + by rewrite fmap_reverse, elem_of_reverse.
  - rewrite Hfwd, Hback. by rewrite written_reverse.
Qed.

(** ** The theorems at concrete calls *)

(** C3, the theorem at the example signature and a context without input
    slots. *)
Lemma RunKernelFunc_size_violation_witness :
  (length (inputs_ (ctx ex_world_no_inputs)) < length (input_defs_ ex_good))%nat
  ∧ RunKernelFunc ex_env ex_good ex_world_no_inputs
    = Throw InvalidArgument ex_world_no_inputs.
Proof.
  split; [simpl; lia|].
  apply RunKernelFunc_size_violation. left. simpl. lia.
Defined.

(** C2, the theorem at the example call with the backend of the custom
    device "npu": the user function is not called. *)
Lemma RunKernelFunc_resolved_backend_witness :
  ∃ m w3,
    marshal (ex_signature ex_npu std.int_t ex_mark) ex_world = Ok m w3 ∧
    resolved ex_env (ex_signature ex_npu std.int_t ex_mark) ∧
    RunKernelFunc ex_env (ex_signature ex_npu std.int_t ex_mark) ex_world
    = Ok tt w3 ∧
    calls w3 = [] ∧
    mem w3 = mem ex_world.
Proof.
  destruct (marshal (ex_signature ex_npu std.int_t ex_mark) ex_world)
    as [m w3| |] eqn:E; [|by vm_compute in E..].
  exists m, w3.
  assert (resolved ex_env (ex_signature ex_npu std.int_t ex_mark)) as Hres.
  { split; [reflexivity|]. by vm_compute. }
  split; [reflexivity|]. split; [exact Hres|].
  apply (RunKernelFunc_resolved_backend_skips_call ex_env _ _ _ _ E);
    [discriminate|exact Hres].
Defined.

(** C1, counterexample to the claim as stated.  The context satisfies the
    size checks and has one output; the plugin rebinds its output handle to
    a tensor of its own holding 99.  When the user function has returned,
    the handle of output 0 reads 99; after [RunKernelFunc] the tensor of
    output 0 still holds 15, the content of the cell the bridge retained. *)
Lemma RunKernelFunc_rebound_output_lost :
  sizes_ok ex_rebind_signature ex_rebind_world ∧
  outputs_independent (ctx ex_rebind_world)
    (output_defs_ ex_rebind_signature) ∧
  output_tensors (ctx ex_rebind_world) (output_defs_ ex_rebind_signature) 0
  = Some [50%nat] ∧
  ∃ m w3 w' t,
    marshal ex_rebind_signature ex_rebind_world = Ok m w3 ∧
    output_handles (output_defs_ ex_rebind_signature) (outs m) 0 = Some [t] ∧
    read_handle (heap_after_call ex_rebind_signature m w3) t
    = Some (tensor 99) ∧
    RunKernelFunc ex_env ex_rebind_signature ex_rebind_world = Ok tt w' ∧
    mem w' !! 50%nat = Some (tensor 15).
Proof.
  split; [by vm_compute|].
  split; [apply (bool_decide_unpack _); by vm_compute|].
  split; [reflexivity|].
  destruct (marshal ex_rebind_signature ex_rebind_world)
    as [m w3| |] eqn:E; [|by vm_compute in E..].
  destruct (RunKernelFunc ex_env ex_rebind_signature ex_rebind_world)
    as [[] w'| |] eqn:R; [|by vm_compute in R..].
  exists m, w3, w', 0%nat.
  vm_compute in E. injection E as <- <-.
  vm_compute in R. injection R as <-.
  vm_compute. split_and!; reflexivity.
Qed.

(** C1, the theorem at the example call: two single inputs, a list input,
    an int attribute, a list output of two tensors and a single output, and
    a plugin that writes in place through every output handle. *)
Lemma RunKernelFunc_outputs_round_trip_witness :
  ∃ m w3 w',
    marshal ex_good ex_world = Ok m w3 ∧
    outputs_independent (ctx ex_world) (output_defs_ ex_good) ∧
    retained_alive (outs m) (heap_after_call ex_good m w3) ∧
    RunKernelFunc ex_env ex_good ex_world = Ok tt w' ∧
    calls w' = [invocation_of m] ∧
    map_forward_outputs (output_defs_ ex_good) (outs m)
      (after_call ex_good m w3)
    = map_back_outputs (output_defs_ ex_good) (outs m)
        (after_call ex_good m w3).
Proof.
  destruct (marshal ex_good ex_world) as [m w3| |] eqn:E;
    [|by vm_compute in E..].
  assert (outputs_independent (ctx ex_world) (output_defs_ ex_good)) as Hind.
  { apply (bool_decide_unpack _). vm_compute. exact I. }
  assert (retained_alive (outs m) (heap_after_call ex_good m w3)) as Halive.
  { pose proof E as E'. vm_compute in E'. injection E' as <- <-.
    apply (bool_decide_unpack _). vm_compute. exact I. }
  destruct (RunKernelFunc_outputs_round_trip ex_env ex_good ex_world m w3
              eq_refl E Hind Halive)
    as (w' & Hrun & Hcalls & _ & _ & Hfwd).
  exists m, w3, w'. split_and!; [reflexivity|exact Hind|exact Halive|exact Hrun|exact Hcalls|exact Hfwd].
Defined.

(** C5, the theorem at the example call with backend 3, which is neither
    CPU nor a known custom device. *)
Lemma RunKernelFunc_unresolved_backend_witness :
  ∃ m w3 w',
    marshal (ex_signature ex_unknown_backend std.int_t ex_mark) ex_world
    = Ok m w3 ∧
    ¬ resolved ex_env (ex_signature ex_unknown_backend std.int_t ex_mark) ∧
    RunKernelFunc ex_env (ex_signature ex_unknown_backend std.int_t ex_mark)
      ex_world = Ok tt w' ∧
    log w' = [LOG_ERROR_unsupported_backend ex_unknown_backend] ∧
    calls w' = [] ∧
    outputs_ (ctx w') = outputs_ ex_ctx ∧
    mem w' = mem ex_world.
Proof.
  destruct (marshal (ex_signature ex_unknown_backend std.int_t ex_mark)
              ex_world) as [m w3| |] eqn:E; [|by vm_compute in E..].
  assert (¬ resolved ex_env
            (ex_signature ex_unknown_backend std.int_t ex_mark)) as Hres.
  { intros [_ H]. apply H. reflexivity. }
  destruct (RunKernelFunc_unresolved_backend ex_env _ ex_world m w3 E
              ltac:(discriminate) Hres)
    as (w' & Hrun & Hlog & Hcalls & Houts & Hmem).
  exists m, w3, w'.
  split_and!;
    [reflexivity|exact Hres|exact Hrun|exact Hlog|exact Hcalls|exact Houts
    |exact Hmem].
Defined.

(** C5, counterexample to the claim as stated.  The signature declares a
    backend that is not CPU and does not resolve, and the context has no
    input slot for its three input specs: the call raises an error, the
    InvalidArgument of the size checks. *)
Lemma RunKernelFunc_unresolved_backend_bad_sizes :
  backend_ (ex_signature ex_unknown_backend std.int_t ex_mark)
  ≠ Backend_CPU ex_env ∧
  ¬ resolved ex_env (ex_signature ex_unknown_backend std.int_t ex_mark) ∧
  RunKernelFunc ex_env (ex_signature ex_unknown_backend std.int_t ex_mark)
    ex_world_no_inputs
  = Throw InvalidArgument ex_world_no_inputs.
Proof.
  split; [discriminate|]. split.
  - intros [_ H]. apply H. reflexivity.
  - vm_compute. reflexivity.
Qed.

(** C4, counterexample to the claim as stated.  The signature has an
    attribute spec outside the fixed set, and the context has no input slot
    for its three input specs: the error is the InvalidArgument of the size
    checks and not Unimplemented. *)
Lemma RunKernelFunc_unsupported_attribute_bad_sizes :
  attribute_defs_ (ex_signature 1 ex_string_t ex_mark) !! 0%nat
  = Some {| type_index := ex_string_t |} ∧
  supported ex_string_t = false ∧
  RunKernelFunc ex_env (ex_signature 1 ex_string_t ex_mark) ex_world_no_inputs
  = Throw InvalidArgument ex_world_no_inputs.
Proof. split_and!; [reflexivity..|]. vm_compute. reflexivity. Qed.

(** C4, the theorem at the example call with an attribute spec of a type
    outside the fixed set. *)
Lemma RunKernelFunc_unsupported_attribute_witness :
  attribute_defs_ (ex_signature 1 ex_string_t ex_mark) !! 0%nat
  = Some {| type_index := ex_string_t |} ∧
  supported ex_string_t = false ∧
  sizes_ok (ex_signature 1 ex_string_t ex_mark) ex_world ∧
  ∃ w1,
    RunKernelFunc ex_env (ex_signature 1 ex_string_t ex_mark) ex_world
    = Throw Unimplemented w1 ∧
    outputs_ (ctx w1) = outputs_ ex_ctx ∧ mem w1 = mem ex_world ∧
    calls w1 = [].
Proof.
  split; [reflexivity|]. split; [reflexivity|].
  assert (sizes_ok (ex_signature 1 ex_string_t ex_mark) ex_world) as Hsz.
  { unfold sizes_ok. simpl. lia. }
  split; [exact Hsz|].
  destruct (RunKernelFunc_unsupported_attribute ex_env
              (ex_signature 1 ex_string_t ex_mark) ex_world 0
              {| type_index := ex_string_t |} eq_refl eq_refl)
    as (_ & Hframe & Hthrow).
  destruct (map_inputs (input_defs_ (ex_signature 1 ex_string_t ex_mark))
              ex_world) as [ins w1| |] eqn:E; [|by vm_compute in E..].
  exists w1.
  assert (RunKernelFunc ex_env (ex_signature 1 ex_string_t ex_mark) ex_world
          = Throw Unimplemented w1) as Hrun.
  { apply (Hthrow Hsz ins w1 eq_refl). intros j dj Hj. lia. }
  split; [exact Hrun|]. exact (Hframe _ _ Hrun).
Defined.

(** C9, the theorem at the example call with an attribute spec of a type
    outside the fixed set: slot 3, in the range of the list input, held a
    tensor and is empty after the error. *)
Lemma RunKernelFunc_Unimplemented_inputs_consumed_witness :
  ∃ w',
    RunKernelFunc ex_env (ex_signature 1 ex_string_t ex_mark) ex_world
    = Throw Unimplemented w' ∧
    inputs_ (ctx w') !! 3%nat = Some None ∧
    ∃ x, inputs_ ex_ctx !! 3%nat = Some (Some x).
Proof.
  destruct (RunKernelFunc ex_env (ex_signature 1 ex_string_t ex_mark) ex_world)
    as [[] w'|e w'|] eqn:R; [by vm_compute in R| |by vm_compute in R].
  destruct e; [by vm_compute in R|].
  exists w'. split; [reflexivity|].
  exact (RunKernelFunc_Unimplemented_inputs_consumed ex_env _ _ _ R 2%nat
           {| backend := 1; layout := 0; dtype := 0; is_vector := true |}
           (2, 5) 3 eq_refl eq_refl eq_refl ltac:(simpl; lia)).
Defined.

(** C7, the theorem at a library that exports nothing, on Linux. *)
Lemma LoadCustomKernelLib_missing_symbol_witness :
  (∅ : gmap string (unit → OpKernelInfoMap)) !! "PD_GetOpKernelInfoMap"%string
  = None ∧
  ∃ f',
    LoadCustomKernelLib ex_env "libcustom.so" ∅ ex_factory = Ok tt f' ∧
    kernels_ f' = kernels_ ex_factory ∧
    factory_log f' = [LOG_WARNING_skipped_lib "libcustom.so"].
Proof.
  split; [reflexivity|].
  exact (LoadCustomKernelLib_missing_symbol ex_env "libcustom.so" ∅ ex_factory
           eq_refl).
Defined.

(** C7, counterexample to the claim as stated.  On a platform other than
    Linux the library without the symbol is not looked into: the call
    returns the state it was given, whose log holds no warning. *)
Lemma LoadCustomKernelLib_other_platform_no_warning :
  (∅ : gmap string (unit → OpKernelInfoMap)) !! "PD_GetOpKernelInfoMap"%string
  = None ∧
  LoadCustomKernelLib ex_env_other_platform "libcustom.so" ∅ ex_factory
  = Ok tt ex_factory ∧
  factory_log ex_factory = [].
Proof. by split_and!. Qed.

(** C10, the theorem at a batch of a signature that can be registered
    followed by one for an unknown op: the error leaves the first one
    installed, in a table that did not hold it before. *)
Lemma registration_not_atomic_witness :
  RegisterKernelWithMetaInfo ex_env ex_batch ex_factory
  = Throw InvalidArgument ex_factory_after ∧
  lookup_kernel ex_factory "dot" (GetKernelKey ex_good) = None ∧
  ∃ i bad,
    ex_batch !! i = Some bad ∧
    RegisterKernelWithMetaInfo ex_env (take i ex_batch) ex_factory
    = Ok tt ex_factory_after ∧
    register_kernel ex_env bad ex_factory_after
    = Throw InvalidArgument ex_factory_after ∧
    ∀ j info, (j < i)%nat → ex_batch !! j = Some info →
      lookup_kernel ex_factory_after (op_name_ info) (GetKernelKey info)
      = Some (custom_kernel ex_env info).
Proof.
  assert (RegisterKernelWithMetaInfo ex_env ex_batch ex_factory
          = Throw InvalidArgument ex_factory_after) as H.
  { unfold RegisterKernelWithMetaInfo, ex_batch.
    rewrite foldM_cons, bind_eq, register_kernel_eq.
    change (kernels_ ex_factory !! op_name_ ex_good)
      with (Some ({[ (2, 0, 0) := ex_builtin ]} : gmap KernelKey Kernel)).
    cbv iota beta.
    change (({[ (2, 0, 0) := ex_builtin ]} : gmap KernelKey Kernel)
              !! GetKernelKey ex_good) with (@None Kernel).
    cbv iota beta.
    rewrite foldM_cons, bind_eq, register_kernel_eq. reflexivity. }
  split; [exact H|]. split; [reflexivity|].
  exact (proj1 (registration_not_atomic ex_env ex_batch ex_factory _ _ H)).
Defined.
